(** * MacroPad hotkeys: the event loop and the macro sequence interpreter

    A shallow embedding of [code.py]: the press and release loops over a
    macro sequence, [App.switch], [display_image] and the main loop, with
    the MacroPad's keyboard, mouse, consumer control, speaker, pixels and
    display seen through the calls the program makes on them. *)

From Stdlib Require Import ZArith QArith Lia.
From stdpp Require Import gmap strings list fin_maps sorting pretty.

#[local] Set Warnings "-clear-no-such-hyp".
Close Scope Q_scope.
Local Open Scope Z_scope.

(** ** Python values

    The items of a macro sequence are told apart at run time with
    [isinstance]; a value is modelled with its run-time type.  [PTuple] and
    [PNone] stand for the values that are none of int, float, str, list or
    dict.  A float is carried as a rational: the program only compares it
    with zero, negates it and hands it on. *)

#[warnings="-register-all"]
Inductive pyval : Type :=
| PInt (z : Z)
| PFloat (q : Q)
| PStr (s : string)
| PList (l : list pyval)
| PDict (d : gmap string pyval)
| PTuple (l : list pyval)
| PNone.

Inductive exn : Type :=
| TypeError
| IndexError
| ZeroDivisionError
| OSError.

Inductive res (A : Type) : Type :=
| Ok (a : A)
| Err (e : exn).
Arguments Ok {A} a.
Arguments Err {A} e.

(** [v >= 0] and [v > 0]: defined between numbers, a TypeError otherwise. *)
Definition py_ge0 (v : pyval) : res bool :=
  match v with
  | PInt z => Ok (0 <=? z)
  | PFloat q => Ok (Qle_bool 0 q)
  | _ => Err TypeError
  end.

Definition py_gt0 (v : pyval) : res bool :=
  match v with
  | PInt z => Ok (0 <? z)
  | PFloat q => Ok (negb (Qle_bool q 0))
  | _ => Err TypeError
  end.

(** Unary minus. *)
Definition py_neg (v : pyval) : res pyval :=
  match v with
  | PInt z => Ok (PInt (- z))
  | PFloat q => Ok (PFloat (Qopp q))
  | _ => Err TypeError
  end.

(** [a % b] on ints: the result has the sign of the divisor, as [Z.modulo]. *)
Definition py_mod (a b : Z) : res Z :=
  if b =? 0 then Err ZeroDivisionError else Ok (a mod b).

(** [l[i]] with Python's negative indices. *)
Definition py_index {A} (l : list A) (i : Z) : res A :=
  let n := Z.of_nat (length l) in
  let j := if i <? 0 then i + n else i in
  if (0 <=? j) && (j <? n) then
    match l !! Z.to_nat j with
    | Some a => Ok a
    | None => Err IndexError
    end
  else Err IndexError.

(** ** Calls on the MacroPad

    Everything the program does to the outside goes through a method of the
    [macropad] object or [time.sleep]; a run is observed as the list of these
    calls, in order. *)

Inductive root : Type :=
| NoRoot
| Menu                       (* the label group built at start-up *)
| Sprite (path : string).    (* the icon sprite group of display_image *)

Inductive call : Type :=
| KeyPress (code : Z)              (* macropad.keyboard.press *)
| KeyRelease (code : Z)            (* macropad.keyboard.release *)
| KeyReleaseAll                    (* macropad.keyboard.release_all *)
| Write (text : string)            (* macropad.keyboard_layout.write *)
| ConsumerPress (code : Z)         (* macropad.consumer_control.press *)
| ConsumerRelease                  (* macropad.consumer_control.release *)
| MousePress (mask : pyval)        (* macropad.mouse.press *)
| MouseRelease (mask : pyval)      (* macropad.mouse.release *)
| MouseReleaseAll                  (* macropad.mouse.release_all *)
| MouseMove (x y wheel : pyval)    (* macropad.mouse.move *)
| StartTone (frequency : pyval)    (* macropad.start_tone *)
| StopTone                         (* macropad.stop_tone *)
| PlayFile (file : pyval)          (* macropad.play_file *)
| Sleep (seconds : Q)              (* time.sleep *)
| PixelSet (i : nat) (color : Z)   (* macropad.pixels[i] = color *)
| PixelsShow                       (* macropad.pixels.show *)
| SetLabel (i : nat) (text : string)   (* group[i].text = text *)
| SpriteFrame (frame : nat)        (* sprite_group[0][0] = frame *)
| DisplayShow (r : root)           (* macropad.display.show *)
| DisplayRefresh.                  (* macropad.display.refresh *)

(** ** Straight-line code: calls and exceptions

    The press and release loops read no program state: they make calls and
    may raise.  [Out A] is the list of calls made and how the code ended. *)

Definition Out (A : Type) : Type := (list call * res A)%type.

Definition oret {A} (a : A) : Out A := ([], Ok a).

Definition obind {A B} (m : Out A) (f : A → Out B) : Out B :=
  match m with
  | (cs, Ok a) => let '(cs', r) := f a in (cs ++ cs', r)
  | (cs, Err e) => (cs, Err e)
  end.

Definition emit (c : call) : Out unit := ([c], Ok tt).

Definition eval {A} (r : res A) : Out A := ([], r).

Declare Scope out_scope.
Delimit Scope out_scope with out.
Notation "'let*' x ':=' m 'in' k" := (obind m (λ x, k))
  (at level 10, x name, m at level 100, k at level 200) : out_scope.
Notation "m >> k" := (obind m (λ _, k))
  (at level 90, right associativity) : out_scope.

(** [for x in l: body(x)] *)
Fixpoint for_each {A} (body : A → Out unit) (l : list A) : Out unit :=
  match l with
  | [] => oret tt
  | x :: l' => (body x >> for_each body l')%out
  end.

(** ** The press loop (code.py, lines 240-273) *)

(** The body of [for code in item], for a list item. *)
Definition press_code (code : pyval) : Out unit :=
  match code with
  | PInt c => (emit ConsumerRelease >> emit (ConsumerPress c))%out
  | PFloat q => emit (Sleep q)
  | _ => oret tt
  end.

(** [item[k] if k in item else 0] *)
Definition get_or_zero (item : gmap string pyval) (k : string) : pyval :=
  match item !! k with
  | Some v => v
  | None => PInt 0
  end.

(** The body of [for item in sequence] when the key goes down. *)
Definition press_item (item : pyval) : Out unit :=
  match item with
  | PInt z =>
      if 0 <=? z then emit (KeyPress z) else emit (KeyRelease (- z))
  | PFloat q => emit (Sleep q)
  | PStr s => emit (Write s)
  | PList codes => for_each press_code codes
  | PDict d =>
      ((match d !! "buttons" with
        | Some b =>
            let* ge := eval (py_ge0 b) in
            if ge : bool then emit (MousePress b)
            else (let* nb := eval (py_neg b) in emit (MouseRelease nb))
        | None => oret tt
        end) >>
       emit (MouseMove (get_or_zero d "x") (get_or_zero d "y")
                       (get_or_zero d "wheel")) >>
       match d !! "tone" with
       | Some t =>
           let* gt := eval (py_gt0 t) in
           if gt : bool then (emit StopTone >> emit (StartTone t))
           else emit StopTone
       | None =>
           match d !! "play" with
           | Some f => emit (PlayFile f)
           | None => oret tt
           end
       end)%out
  | PTuple _ | PNone => oret tt
  end.

Definition press_sequence (sequence : list pyval) : Out unit :=
  for_each press_item sequence.

(** ** The release loop (code.py, lines 280-289) *)

Definition release_item (item : pyval) : Out unit :=
  match item with
  | PInt z => if 0 <=? z then emit (KeyRelease z) else oret tt
  | PDict d =>
      match d !! "buttons" with
      | Some b =>
          (let* ge := eval (py_ge0 b) in
           if ge : bool then emit (MouseRelease b) else oret tt)%out
      | None =>
          match d !! "tone" with
          | Some _ => emit StopTone
          | None => oret tt
          end
      end
  | _ => oret tt
  end.

Definition release_sequence (sequence : list pyval) : Out unit :=
  for_each release_item sequence.

(** ** The key-down and key-up branches of the main loop

    A binding is one entry of [App.macros]: color, label, sequence; the
    sequence is the list of the items the [for] loops run over. *)

Record binding : Type := Binding {
  color : Z;
  label : string;
  sequence : list pyval
}.

(** Lines 237-273: light the key, then play the sequence.  The encoder
    button is key 12 and has no pixel. *)
Definition press_edge (b : binding) (key_number : nat) : Out unit :=
  ((if bool_decide (key_number < 12)%nat
    then emit (PixelSet key_number 0xFFFFFF) >> emit PixelsShow
    else oret tt) >>
   press_sequence (sequence b))%out.

(** Lines 280-293: release what the sequence holds, release the consumer
    control, restore the key's color. *)
Definition release_edge (b : binding) (key_number : nat) : Out unit :=
  (release_sequence (sequence b) >>
   emit ConsumerRelease >>
   (if bool_decide (key_number < 12)%nat
    then emit (PixelSet key_number (color b)) >> emit PixelsShow
    else oret tt))%out.

(** ** What the calls do to the MacroPad

    The state of the devices behind the calls, as far as the host computer
    and the user can see it: the keys, mouse buttons and consumer control
    codes reported as held, the tone being played, the pixel buffer and the
    colors shown by the last [pixels.show()], the label texts, the group
    given to the display and what the last [refresh()] drew. *)

Record device : Type := Device {
  keys : gset Z;
  buttons : Z;
  media : gset Z;
  tone : option pyval;
  pixel_buf : list Z;
  leds : list Z;
  labels : list string;
  shown : root;
  frame : nat;
  screen : root * list string * nat
}.

(** A button mask is an int; any other value sets or clears no bit.

    A key or a consumer control code is held from its press to its release
    (or to a release of all); [keyboard_layout.write] presses and releases
    the keys of its text itself and holds none when it returns; moving the
    mouse, playing a file and sleeping hold nothing. *)
Definition mask_of (v : pyval) : Z :=
  match v with
  | PInt m => m
  | _ => 0
  end.

Definition device_step (d : device) (c : call) : device :=
  let '(Device ks bs md tn pb ld lb sh fr sc) := d in
  match c with
  | KeyPress k => Device ({[k]} ∪ ks) bs md tn pb ld lb sh fr sc
  | KeyRelease k => Device (ks ∖ {[k]}) bs md tn pb ld lb sh fr sc
  | KeyReleaseAll => Device ∅ bs md tn pb ld lb sh fr sc
  | ConsumerPress k => Device ks bs ({[k]} ∪ md) tn pb ld lb sh fr sc
  | ConsumerRelease => Device ks bs ∅ tn pb ld lb sh fr sc
  | MousePress m => Device ks (Z.lor bs (mask_of m)) md tn pb ld lb sh fr sc
  | MouseRelease m => Device ks (Z.ldiff bs (mask_of m)) md tn pb ld lb sh fr sc
  | MouseReleaseAll => Device ks 0 md tn pb ld lb sh fr sc
  | StartTone f => Device ks bs md (Some f) pb ld lb sh fr sc
  | StopTone => Device ks bs md None pb ld lb sh fr sc
  | PixelSet i col => Device ks bs md tn (<[i:=col]> pb) ld lb sh fr sc
  | PixelsShow => Device ks bs md tn pb pb lb sh fr sc
  | SetLabel i t => Device ks bs md tn pb ld (<[i:=t]> lb) sh fr sc
  | SpriteFrame n => Device ks bs md tn pb ld lb sh n sc
  | DisplayShow r => Device ks bs md tn pb ld lb r fr sc
  | DisplayRefresh => Device ks bs md tn pb ld lb sh fr (sh, lb, fr)
  | Write _ | MouseMove _ _ _ | PlayFile _ | Sleep _ => d
  end.

Definition run_calls (cs : list call) (d : device) : device :=
  foldl device_step d cs.

(** The MacroPad at power-on: nothing held, twelve dark pixels, the twelve
    key labels, the title bar and the title label empty. *)
Definition power_on : device :=
  Device ∅ 0 ∅ None (replicate 12 0) (replicate 12 0) (replicate 14 "")
         NoRoot 0 (NoRoot, replicate 14 "", 0%nat).

(** ** Program state and inputs

    What the program reads from the outside is an oracle: the n-th read of
    the encoder, of the clock, of the debounced encoder switch after n
    updates, the n-th [events.get()], and the image files on the drive. *)

Record Env : Type := {
  encoder : nat → Z;                          (* macropad.encoder *)
  monotonic : nat → Q;                        (* time.monotonic() *)
  encoder_switch : nat → bool;                (* encoder_switch_debounced.pressed *)
  key_event : nat → option (nat * bool);      (* macropad.keys.events.get() *)
  stat_ok : string → bool;                    (* os.stat(path) succeeds *)
  bitmap_height : string → Z                  (* OnDiskBitmap(file).height *)
}.

(** The module-level variables, the calls made so far, and how many times
    each input has been read. *)
Record World : Type := MkWorld {
  trace : list call;
  app_index : Z;
  last_position : option Z;
  last_encoder_switch : bool;
  image_file : option string;
  current_image_path : string;
  n_encoder : nat;
  n_monotonic : nat;
  n_update : nat;
  n_get : nat
}.

(** A computation on the world ends with a value or an exception, or runs
    out of loop budget ([None]). *)
Definition M (A : Type) : Type := World → option (res A * World).

Definition mret {A} (a : A) : M A := λ w, Some (Ok a, w).

Definition mbind {A B} (m : M A) (f : A → M B) : M B :=
  λ w, match m w with
       | Some (Ok a, w') => f a w'
       | Some (Err e, w') => Some (Err e, w')
       | None => None
       end.

Definition raise {A} (e : exn) : M A := λ w, Some (Err e, w).

Definition out_of_fuel {A} : M A := λ _, None.

Declare Scope m_scope.
Delimit Scope m_scope with M.
Notation "'let*' x ':=' m 'in' k" := (mbind m (λ x, k))
  (at level 10, x name, m at level 100, k at level 200) : m_scope.
Notation "m >> k" := (mbind m (λ _, k))
  (at level 90, right associativity) : m_scope.

Definition add_calls (cs : list call) (w : World) : World :=
  let '(MkWorld tr ai lp ls imf cip ne nm nu ng) := w in
  MkWorld (tr ++ cs) ai lp ls imf cip ne nm nu ng.

(** Run straight-line code: its calls go to the trace. *)
Definition lift {A} (o : Out A) : M A :=
  λ w, Some (o.2, add_calls o.1 w).

Definition call_ (c : call) : M unit := lift (emit c).

Definition of_res {A} (r : res A) : M A := λ w, Some (r, w).

Definition get {A} (f : World → A) : M A := λ w, Some (Ok (f w), w).

Definition set_app_index (v : Z) : M unit :=
  λ '(MkWorld tr _ lp ls imf cip ne nm nu ng),
    Some (Ok tt, MkWorld tr v lp ls imf cip ne nm nu ng).

Definition set_last_position (v : option Z) : M unit :=
  λ '(MkWorld tr ai _ ls imf cip ne nm nu ng),
    Some (Ok tt, MkWorld tr ai v ls imf cip ne nm nu ng).

Definition set_last_encoder_switch (v : bool) : M unit :=
  λ '(MkWorld tr ai lp _ imf cip ne nm nu ng),
    Some (Ok tt, MkWorld tr ai lp v imf cip ne nm nu ng).

Definition set_image_file (v : option string) : M unit :=
  λ '(MkWorld tr ai lp ls _ cip ne nm nu ng),
    Some (Ok tt, MkWorld tr ai lp ls v cip ne nm nu ng).

Definition set_current_image_path (v : string) : M unit :=
  λ '(MkWorld tr ai lp ls imf _ ne nm nu ng),
    Some (Ok tt, MkWorld tr ai lp ls imf v ne nm nu ng).

Fixpoint mfor {A} (body : A → M unit) (l : list A) : M unit :=
  match l with
  | [] => mret tt
  | x :: l' => (body x >> mfor body l')%M
  end.

(** ** Configurables *)

Definition MACRO_FOLDER : string := "/macros".
Definition IMAGES_FOLDER : string := "/images".
Definition DEFAULT_IMAGE : string := IMAGES_FOLDER +:+ "/default_animation.bmp".
Definition ICON_DURATION : Q := 1.
Definition FRAME_DURATION : Q := 1 # 20.
Definition ICON_HEIGHT : Z := 64.

Definition Qlt_bool (a b : Q) : bool := negb (Qle_bool b a).

Record App : Type := MkApp {
  index : Z;
  name : string;
  macros : list binding;
  icon : string
}.

Inductive phase : Type :=
| Running     (* in the main loop *)
| Halted.     (* in [while True: pass] *)

Section Program.

Variable env : Env.

(** *** Input reads *)

Definition read_encoder : M Z :=
  λ '(MkWorld tr ai lp ls imf cip ne nm nu ng),
    Some (Ok (encoder env ne), MkWorld tr ai lp ls imf cip (S ne) nm nu ng).

Definition read_monotonic : M Q :=
  λ '(MkWorld tr ai lp ls imf cip ne nm nu ng),
    Some (Ok (monotonic env nm), MkWorld tr ai lp ls imf cip ne (S nm) nu ng).

(** [encoder_switch_debounced.update()] *)
Definition update_switch : M unit :=
  λ '(MkWorld tr ai lp ls imf cip ne nm nu ng),
    Some (Ok tt, MkWorld tr ai lp ls imf cip ne nm (S nu) ng).

(** [encoder_switch_debounced.pressed] *)
Definition switch_pressed : M bool :=
  λ w, Some (Ok (encoder_switch env (n_update w)), w).

Definition events_get : M (option (nat * bool)) :=
  λ '(MkWorld tr ai lp ls imf cip ne nm nu ng),
    Some (Ok (key_event env ng), MkWorld tr ai lp ls imf cip ne nm nu (S ng)).

(** [open(path, "rb")] *)
Definition open_file (path : string) : M unit :=
  if stat_ok env path then set_image_file (Some path) else raise OSError.

(** *** display_image (lines 44-92) *)

(** The [for current_frame in range(frame_count)] loop; the result is the
    value of [loop] after it. *)
Fixpoint show_frames (enc_position : Z) (frames : list nat) : M bool :=
  match frames with
  | [] => mret true
  | current_frame :: rest =>
      (call_ (SpriteFrame current_frame) >>
       call_ DisplayRefresh >>
       let* e := read_encoder in
       if bool_decide (e ≠ enc_position) then mret false
       else (call_ (Sleep FRAME_DURATION) >>
             show_frames enc_position rest))%M
  end.

(** [while loop and time.monotonic() < t0 + ICON_DURATION]; [fuel] bounds
    the number of iterations. *)
Fixpoint animate (fuel : nat) (enc_position : Z) (t0 : Q)
    (frames : list nat) : M bool :=
  match fuel with
  | O => out_of_fuel
  | S fuel' =>
      (let* now := read_monotonic in
       if Qlt_bool now (t0 + ICON_DURATION)%Q then
         let* loop := show_frames enc_position frames in
         if loop : bool then animate fuel' enc_position t0 frames
         else mret false
       else mret true)%M
  end.

(** Lines 47-52: the icon's path, or the default image when [os.stat]
    raises OSError. *)
Definition image_path (icon_file : string) : string :=
  let image_file_path := IMAGES_FOLDER +:+ "/" +:+ icon_file in
  if stat_ok env image_file_path then image_file_path else DEFAULT_IMAGE.

(** Lines 62-65: one frame per [ICON_HEIGHT] rows, at least one. *)
Definition frame_count (image_file_path : string) : Z :=
  let frame_count := 1 in
  let height_count := bitmap_height env image_file_path / ICON_HEIGHT in
  if 1 <? height_count then height_count else frame_count.

Definition display_image (fuel : nat) (icon_file : string) : M bool :=
  (let* enc_position := read_encoder in
   let image_file_path := image_path icon_file in
   let* cur := get current_image_path in
   (if bool_decide (cur ≠ image_file_path) then
      set_image_file None >>
      set_current_image_path image_file_path >>
      open_file image_file_path
    else mret tt) >>
   call_ (DisplayShow (Sprite image_file_path)) >>
   let* t0 := read_monotonic in
   let* loop := animate fuel enc_position t0
                  (seq 0 (Z.to_nat (frame_count image_file_path))) in
   if negb loop then mret false else mret true)%M.

(** *** App.switch (lines 106-135) *)

Definition switch (fuel : nat) (self : App) : M bool :=
  (call_ KeyReleaseAll >>
   call_ ConsumerRelease >>
   call_ MouseReleaseAll >>
   call_ StopTone >>
   mfor (λ i, match macros self !! i with
              | Some b => call_ (PixelSet i (color b))
              | None => call_ (PixelSet i 0)
              end) (seq 0 12) >>
   call_ PixelsShow >>
   let* result := display_image fuel (icon self) in
   if negb result then mret false
   else
     (mfor (λ i, match macros self !! i with
                 | Some b => call_ (SetLabel i (label b))
                 | None => call_ (SetLabel i "")
                 end) (seq 0 12) >>
      call_ (SetLabel 13 (name self)) >>
      call_ (DisplayShow Menu) >>
      call_ DisplayRefresh >>
      mret true))%M.

(** *** The main loop (lines 193-293), one iteration *)

(** Lines 195-204.  [false] is the [continue] after an interrupted switch. *)
Definition poll_encoder (fuel : nat) (apps : list App) : M bool :=
  (let* position := read_encoder in
   let* last := get last_position in
   if bool_decide (Some position ≠ last) then
     let* i := of_res (py_mod position (Z.of_nat (length apps))) in
     set_app_index i >>
     let* app := of_res (py_index apps i) in
     let* result := switch fuel app in
     set_last_position (Some position) >>
     mret result
   else mret true)%M.

(** Lines 209-222.  [None] is a [continue]; otherwise the key number and
    whether it went down. *)
Definition poll_keys (apps : list App) : M (option (nat * bool)) :=
  (update_switch >>
   let* encoder_switch := switch_pressed in
   let* last := get last_encoder_switch in
   if bool_decide (encoder_switch ≠ last) then
     set_last_encoder_switch encoder_switch >>
     let* i := get app_index in
     let* app := of_res (py_index apps i) in
     if bool_decide (length (macros app) < 13)%nat then mret None
     else mret (Some (12%nat, encoder_switch))
   else
     let* event := events_get in
     match event with
     | None => mret None
     | Some (key_number, pressed) =>
         let* i := get app_index in
         let* app := of_res (py_index apps i) in
         if bool_decide (length (macros app) ≤ key_number)%nat then mret None
         else mret (Some (key_number, pressed))
     end)%M.

(** Lines 228-293. *)
Definition dispatch (apps : list App) (key_number : nat) (pressed : bool)
    : M unit :=
  (let* i := get app_index in
   let* app := of_res (py_index apps i) in
   let* b := of_res (py_index (macros app) (Z.of_nat key_number)) in
   if pressed then lift (press_edge b key_number)
   else lift (release_edge b key_number))%M.

Definition main_loop_iteration (fuel : nat) (apps : list App) : M unit :=
  (let* go := poll_encoder fuel apps in
   if negb go then mret tt
   else
     let* edge := poll_keys apps in
     match edge with
     | None => mret tt
     | Some (key_number, pressed) => dispatch apps key_number pressed
     end)%M.

(** *** Start-up (lines 140-189) and the whole program *)

Definition startup (fuel : nat) (apps : list App) : M phase :=
  (call_ (DisplayShow Menu) >>
   match apps with
   | [] =>
       call_ (SetLabel 13 "NO MACRO FILES FOUND") >>
       call_ DisplayRefresh >>
       mret Halted
   | _ :: _ =>
       set_last_position None >>
       let* pressed := switch_pressed in
       set_last_encoder_switch pressed >>
       set_app_index 0 >>
       let* app := of_res (py_index apps 0) in
       switch fuel app >>
       mret Running
   end)%M.

(** One turn of whichever loop the program is in. *)
Definition step (fuel : nat) (apps : list App) (ph : phase) : M phase :=
  match ph with
  | Halted => mret Halted
  | Running => (main_loop_iteration fuel apps >> mret Running)%M
  end.

Fixpoint steps (fuel : nat) (apps : list App) (n : nat) (ph : phase)
    : M phase :=
  match n with
  | O => mret ph
  | S n' => (let* ph' := step fuel apps ph in steps fuel apps n' ph')%M
  end.

Definition program (fuel : nat) (apps : list App) (n : nat) : M phase :=
  (let* ph := startup fuel apps in steps fuel apps n ph)%M.

End Program.

(** The world when [code.py] starts. *)
Definition initial_world : World :=
  MkWorld [] 0 None false None "" 0 0 0 0.

(** The MacroPad after a run, from power-on. *)
Definition device_of (w : World) : device := run_calls (trace w) power_on.

Arguments mbind {A B} m f w /.
Arguments mret {A} a w /.
Arguments raise {A} e w /.
Arguments out_of_fuel {A} w /.
Arguments lift {A} o w /.
Arguments call_ c w /.
Arguments of_res {A} r w /.
Arguments get {A} f w /.
Arguments set_app_index v w /.
Arguments set_last_position v w /.
Arguments set_last_encoder_switch v w /.
Arguments set_image_file v w /.
Arguments set_current_image_path v w /.
Arguments read_encoder env w /.
Arguments read_monotonic env w /.
Arguments update_switch w /.
Arguments switch_pressed env w /.
Arguments events_get env w /.

(** ** Run-time types

    [isinstance(v, t)] for the types the loops test. *)

Inductive pytype : Type :=
| TInt | TFloat | TStr | TList | TDict | TTuple | TNoneType.

#[global] Instance pytype_eq_dec : EqDecision pytype.
Proof. solve_decision. Defined.

Definition type_of (v : pyval) : pytype :=
  match v with
  | PInt _ => TInt
  | PFloat _ => TFloat
  | PStr _ => TStr
  | PList _ => TList
  | PDict _ => TDict
  | PTuple _ => TTuple
  | PNone => TNoneType
  end.

Definition isinstance (v : pyval) (t : pytype) : bool :=
  bool_decide (type_of v = t).

(** The item kinds the press loop tests for, and the kinds it tests for
    inside a list item. *)
Definition recognized_item (v : pyval) : bool :=
  isinstance v TInt || isinstance v TFloat || isinstance v TStr
  || isinstance v TList || isinstance v TDict.

Definition recognized_code (v : pyval) : bool :=
  isinstance v TInt || isinstance v TFloat.

(** ** Kinds of calls *)

(** Every [consumer_control.press] in a list of calls comes right after a
    [consumer_control.release]. *)
Inductive release_first : list call → Prop :=
| rf_nil : release_first []
| rf_press c cs :
    release_first cs →
    release_first (ConsumerRelease :: ConsumerPress c :: cs)
| rf_other x cs :
    (∀ c, x ≠ ConsumerPress c) →
    release_first cs →
    release_first (x :: cs).

(** The calls that only let go of something the host sees as held. *)
Definition releasing (c : call) : bool :=
  match c with
  | KeyRelease _ | MouseRelease _ | StopTone | ConsumerRelease => true
  | _ => false
  end.

(** The calls that make the host see something held, or start a tone. *)
Definition asserting (c : call) : bool :=
  match c with
  | KeyPress _ | MousePress _ | ConsumerPress _ | StartTone _ => true
  | _ => false
  end.

(** The calls of [display_image]'s animation loop. *)
Definition animation_call (c : call) : bool :=
  match c with
  | SpriteFrame _ | DisplayRefresh | Sleep _ => true
  | _ => false
  end.

(** The calls that write a label, and those that write or show pixels. *)
Definition sets_label (c : call) : bool :=
  match c with
  | SetLabel _ _ => true
  | _ => false
  end.

Definition sets_pixels (c : call) : bool :=
  match c with
  | PixelSet _ _ | PixelsShow => true
  | _ => false
  end.

(** ** The calls of some lines of the program *)

(** The first four calls of [App.switch]. *)
Definition stop_calls : list call :=
  [KeyReleaseAll; ConsumerRelease; MouseReleaseAll; StopTone].

(** The pixel writes of [App.switch], lines 115-119. *)
Definition color_calls (self : App) : list call :=
  (λ i, PixelSet i match macros self !! i with
                   | Some b => color b
                   | None => 0
                   end) <$> seq 0 12.

(** The colors [App.switch] gives the twelve pixels. *)
Definition profile_colors (self : App) : list Z :=
  (λ i, match macros self !! i with
        | Some b => color b
        | None => 0
        end) <$> seq 0 12.

(** The pixel calls that end the key-up branch, lines 292-293. *)
Definition restore_calls (key_number : nat) (col : Z) : list call :=
  [PixelSet key_number col; PixelsShow].

(** ** Example data *)

(** A dict item with a mouse button and a tone, bound to the first key. *)
Definition click_and_beep : pyval :=
  PDict {["buttons" := PInt 1; "tone" := PInt 440]}.

Definition beep_binding : binding :=
  Binding 0xFF0000 "Beep" [click_and_beep].

(** Two profiles of one key each, none for the encoder button. *)
Definition red_app : App :=
  MkApp 0 "Red" [Binding 0xFF0000 "Copy" [PInt 224; PInt 6]] "0.bmp".

Definition green_app : App :=
  MkApp 1 "Green" [Binding 0x00FF00 "Undo" [PInt 224; PStr "z"]] "1.bmp".

(** An encoder that is turned one detent before the main loop reads it and
    another one while the next icon is on display; a clock that stops at 2
    seconds; the encoder button down; no key events; the default image on
    the drive, one frame high. *)
Definition turning_env : Env := {|
  encoder := λ n, match n with
                  | O => 0
                  | 1%nat | 2%nat => 1
                  | _ => 2
                  end;
  monotonic := λ n, match n with
                    | O => 0
                    | 1%nat => 1
                    | _ => 2
                    end%Q;
  encoder_switch := λ _, true;
  key_event := λ _, None;
  stat_ok := λ path, bool_decide (path = DEFAULT_IMAGE);
  bitmap_height := λ _, 64
|}.

(** An idle encoder at position 0, the button down from the first update
    on, key 5 pressed. *)
Definition idle_env : Env := {|
  encoder := λ _, 0;
  monotonic := λ n, inject_Z (Z.of_nat n);
  encoder_switch := λ n, match n with O => false | _ => true end;
  key_event := λ _, Some (5%nat, true);
  stat_ok := λ path, bool_decide (path = DEFAULT_IMAGE);
  bitmap_height := λ _, 64
|}.

(** The world of the main loop with the first profile active, the encoder
    at rest at position 0 and the button up. *)
Definition idle_world : World :=
  MkWorld [] 0 (Some 0) false None "" 0 0 0 0.

(** The world once [code.py] has started with the two profiles on
    [turning_env] and reached the main loop: the red profile is active. *)
Definition red_active : World :=
  match startup turning_env 2 [red_app; green_app] initial_world with
  | Some (_, w) => w
  | None => initial_world
  end.

(** ** More kinds of calls *)

(** The calls the key-up branch can make. *)
Definition release_call (c : call) : bool :=
  match c with
  | KeyRelease _ | MouseRelease _ | StopTone | ConsumerRelease
  | PixelSet _ _ | PixelsShow => true
  | _ => false
  end.

(** The calls the press loop can make: keyboard, consumer control, mouse,
    speaker and [time.sleep], never the pixels or the display. *)
Definition play_call (c : call) : bool :=
  match c with
  | KeyPress _ | KeyRelease _ | Write _ | ConsumerPress _ | ConsumerRelease
  | MousePress _ | MouseRelease _ | MouseMove _ _ _
  | StartTone _ | StopTone | PlayFile _ | Sleep _ => true
  | _ => false
  end.


(** ** More example data *)

(** Control-C with the control key held to the key-up, a click, a beep and
    two media codes. *)
Definition mixed_binding : binding :=
  Binding 0x101010 "Mixed"
    [PInt 224; PInt 6; PInt (-6);
     PDict {["buttons" := PInt 1]};
     PDict {["tone" := PInt 440]};
     PList [PInt 0xE9; PFloat (1 # 10); PInt 0xEA]].

(** The MacroPad while another macro holds the shift key and the right
    mouse button. *)
Definition held_by_other : device :=
  run_calls [KeyPress 225; MousePress (PInt 2)] power_on.


(** The label writes of [App.switch], lines 127-132, and the calls that
    put the menu on the display, lines 133-134. *)
Definition label_calls (self : App) : list call :=
  ((λ i, SetLabel i match macros self !! i with
                    | Some b => label b
                    | None => ""
                    end) <$> seq 0 12)
  ++ [SetLabel 13 (name self)].

Definition menu_calls : list call := [DisplayShow Menu; DisplayRefresh].

(** The texts [App.switch] gives the twelve key labels. *)
Definition profile_labels (self : App) : list string :=
  (λ i, match macros self !! i with
        | Some b => label b
        | None => ""
        end) <$> seq 0 12.

(** An encoder at rest; a clock that reads 0 twice and 2 from then on, so
    that an icon shown at start-up stays for one round of its two frames;
    the button up; key 0 pressed. *)
Definition resting_env : Env := {|
  encoder := λ _, 0;
  monotonic := λ n, match n with
                    | O | 1%nat => 0
                    | _ => 2
                    end%Q;
  encoder_switch := λ _, false;
  key_event := λ _, Some (0%nat, true);
  stat_ok := λ path, bool_decide (path = DEFAULT_IMAGE);
  bitmap_height := λ _, 128
|}.

(** A profile with a macro for each of the twelve keys and one for the
    encoder button. *)
Definition thirteen_app : App :=
  MkApp 0 "Thirteen"
    (replicate 12 (Binding 0x000040 "Key" [PStr "k"])
     ++ [Binding 0 "" [PInt 224; PStr "S"]])
    "0.bmp".

(** The profile index is an index of [apps]. *)
Definition in_bounds (apps : list App) (w : World) : Prop :=
  0 ≤ app_index w < Z.of_nat (length apps).

(** ** Loading the profiles (code.py, lines 100-104 and 161-176)

    [os.listdir] and [__import__] are inputs: the names in the macro
    folder, and for each module path either the [app] dict of the module or
    the exception that importing it, or reading [module.app] as a dict,
    raises.  Of the dict only what [App.__init__] reads is kept: the
    entries ['name'], ['macros'] and ['icon'], each present or not. *)

Module Loader.

(** The exceptions of the [except] clause at lines 172-173, and two that
    it does not name. *)
Inductive exc : Type :=
| SyntaxError | ImportError | AttributeError | KeyError | NameError
| IndexError | TypeError
| MemoryError | ValueError.

Definition caught (e : exc) : bool :=
  match e with
  | SyntaxError | ImportError | AttributeError | KeyError | NameError
  | IndexError | TypeError => true
  | MemoryError | ValueError => false
  end.

Inductive outcome (A : Type) : Type :=
| Done (a : A)
| Raised (e : exc).
Arguments Done {A} a.
Arguments Raised {A} e.

Record appdata : Type := {
  data_name : option string;
  data_macros : option (list binding);
  data_icon : option string
}.

(** [App.__init__], lines 100-104. *)
Definition init (data : appdata) (index : Z) : outcome App :=
  match data_name data with
  | None => Raised KeyError
  | Some name =>
      match data_macros data with
      | None => Raised KeyError
      | Some macros =>
          Done (MkApp index name macros
                  (match data_icon data with
                   | Some icon => icon
                   | None => pretty index +:+ ".bmp"
                   end))
      end
  end.

(** [s.startswith(p)], [s.endswith(p)] and [s[:-3]]. *)
Definition startswith (s p : string) : bool := String.prefix p s.

Definition endswith (s p : string) : bool :=
  String.prefix (String.rev p) (String.rev s).

Definition drop_last_3 (s : string) : string :=
  String.substring 0 (String.length s - 3) s.

(** The test of line 167 and the module path of line 169. *)
Definition is_macro_file (filename : string) : bool :=
  endswith filename ".py" && negb (startswith filename "._").

Definition module_path (filename : string) : string :=
  MACRO_FOLDER +:+ "/" +:+ drop_last_3 filename.

(** The state of the loading loop: [apps], [app_index] and the file names
    printed after "ERROR in". *)
Record loaded : Type := Loaded {
  apps : list App;
  app_index : Z;
  printed : list string
}.

(** The body of the loop, lines 167-176. *)
Definition load_file (import : string → outcome appdata)
    (filename : string) (st : loaded) : outcome loaded :=
  if is_macro_file filename then
    match
      match import (module_path filename) with
      | Done data => init data (app_index st)
      | Raised e => Raised e
      end
    with
    | Done app =>
        Done (Loaded (apps st ++ [app]) (app_index st + 1) (printed st))
    | Raised e =>
        if caught e
        then Done (Loaded (apps st) (app_index st) (printed st ++ [filename]))
        else Raised e
    end
  else Done st.

Fixpoint load_files (import : string → outcome appdata)
    (files : list string) (st : loaded) : outcome loaded :=
  match files with
  | [] => Done st
  | filename :: rest =>
      match load_file import filename st with
      | Done st' => load_files import rest st'
      | Raised e => Raised e
      end
  end.

(** Lines 162-166: the names are sorted, as strings, before the loop. *)
Definition load (import : string → outcome appdata)
    (listdir : list string) : outcome loaded :=
  load_files import (merge_sort String.le listdir) (Loaded [] 0 []).

(** What a file contributes when it loads. *)
Definition loads (import : string → outcome appdata)
    (filename : string) (index : Z) (app : App) : Prop :=
  is_macro_file filename = true
  ∧ ∃ data, import (module_path filename) = Done data
            ∧ init data index = Done app.

(** A folder as the repository ships it, beside a text file, a resource
    fork and a module without [app]. *)
Definition premiere_data : appdata := {|
  data_name := Some "Premiere";
  data_macros := Some [Binding 0xBB51FB "Undo" [PInt 224; PStr "z"]];
  data_icon := None
|}.

Definition example_import (path : string) : outcome appdata :=
  if bool_decide (path = "/macros/1win-adobe-premiere") then Done premiere_data
  else if bool_decide (path = "/macros/broken") then Raised AttributeError
  else Raised ImportError.

Definition example_listdir : list string :=
  ["readme.txt"; "broken.py"; "._1win-adobe-premiere.py";
   "1win-adobe-premiere.py"].

End Loader.

(** What loading the example folder gives. *)
Definition example_loaded : Loader.loaded :=
  Loader.Loaded
    [MkApp 0 "Premiere" [Binding 0xBB51FB "Undo" [PInt 224; PStr "z"]] "0.bmp"]
    1 ["broken.py"].

(** ** The image cache (code.py, lines 41-42 and 54-59) *)

(** Nothing has been opened and no path is recorded, or the open file is
    the one recorded in [current_image_path], which is on the drive. *)
Definition cache_coherent (env : Env) (w : World) : Prop :=
  match image_file w with
  | None => current_image_path w = ""
  | Some path => current_image_path w = path ∧ stat_ok env path = true
  end.

(** The open file is the image of [apps[app_index]]. *)
Definition shows_active (env : Env) (apps : list App) (w : World) : Prop :=
  ∃ app, py_index apps (app_index w) = Ok app
         ∧ image_file w = Some (image_path env (icon app))
         ∧ current_image_path w = image_path env (icon app)
         ∧ stat_ok env (image_path env (icon app)) = true.

(** * Properties *)

(** ** Straight-line code *)

Lemma obind_oret_l {A B} (a : A) (f : A → Out B) : obind (oret a) f = f a.
Proof. unfold obind, oret. destruct (f a) as [cs r]. reflexivity. Qed.

Lemma obind_assoc {A B C} (m : Out A) (f : A → Out B) (g : B → Out C) :
  obind (obind m f) g = obind m (λ a, obind (f a) g).
Proof.
  destruct m as [cs [a|e]]; simpl; [|reflexivity].
  destruct (f a) as [cs1 [b|e]]; simpl; [|reflexivity].
  destruct (g b) as [cs2 r]. by rewrite (assoc_L (++)).
Qed.

Lemma for_each_app {A} (body : A → Out unit) (l1 l2 : list A) :
  for_each body (l1 ++ l2) = obind (for_each body l1) (λ _, for_each body l2).
Proof.
  induction l1 as [|x l1 IH].
  - change (for_each body []) with (@oret unit tt).
    by rewrite obind_oret_l.
  - change (for_each body ((x :: l1) ++ l2))
      with (obind (body x) (λ _, for_each body (l1 ++ l2))).
    change (for_each body (x :: l1))
      with (obind (body x) (λ _, for_each body l1)).
    by rewrite IH, obind_assoc.
Qed.

(** Code that makes no call and returns can be dropped from a loop. *)
Lemma for_each_skip {A} (body : A → Out unit) (l1 l2 : list A) (x : A) :
  body x = oret tt →
  for_each body (l1 ++ x :: l2) = for_each body (l1 ++ l2).
Proof.
  intros Hx. rewrite !for_each_app.
  change (for_each body (x :: l2))
    with (obind (body x) (λ _, for_each body l2)).
  by rewrite Hx, obind_oret_l.
Qed.

(** ** Media codes *)

(** C5, as the code has it: playing [[code1, 0.1, code2]] releases the
    consumer control before each of the two codes, so the calls are
    release, press code1, sleep 0.1, release, press code2. *)
Theorem media_codes_calls (code1 code2 : Z) :
  press_sequence [PList [PInt code1; PFloat (1 # 10); PInt code2]]
  = ([ConsumerRelease; ConsumerPress code1; Sleep (1 # 10);
      ConsumerRelease; ConsumerPress code2], Ok tt).
Proof. reflexivity. Qed.

(** C5, as stated, fails: the first call is a release, not the press of
    the first code. *)
Lemma media_codes_not_four_calls :
  press_sequence [PList [PInt 0xE9; PFloat (1 # 10); PInt 0xEA]]
  ≠ ([ConsumerPress 0xE9; Sleep (1 # 10);
      ConsumerRelease; ConsumerPress 0xEA], Ok tt).
Proof. discriminate. Qed.

Lemma obind_calls {A B} (m : Out A) (f : A → Out B) :
  (obind m f).1 = m.1 ++ match m.2 with
                         | Ok a => (f a).1
                         | Err _ => []
                         end.
Proof.
  destruct m as [cs [a|e]]; simpl.
  - by destruct (f a).
  - by rewrite (right_id_L [] (++)).
Qed.

Lemma release_first_app (cs1 cs2 : list call) :
  release_first cs1 → release_first cs2 → release_first (cs1 ++ cs2).
Proof.
  induction 1 as [|c cs H IH|x cs Hx H IH]; intros H2; simpl.
  - done.
  - apply rf_press; auto.
  - apply rf_other; auto.
Qed.

Lemma release_first_obind {A B} (m : Out A) (f : A → Out B) :
  release_first m.1 → (∀ a, release_first (f a).1) →
  release_first (obind m f).1.
Proof.
  intros Hm Hf. rewrite obind_calls. apply release_first_app; [done|].
  destruct m.2; [apply Hf | constructor].
Qed.

Lemma release_first_for_each {A} (body : A → Out unit) (l : list A) :
  (∀ x, release_first (body x).1) → release_first (for_each body l).1.
Proof.
  intros Hb. induction l as [|x l IH]; [constructor|].
  apply release_first_obind; auto.
Qed.

Ltac no_press := repeat (apply rf_other; [done|]); apply rf_nil.

Lemma release_first_press_code (code : pyval) :
  release_first (press_code code).1.
Proof.
  destruct code; simpl; try no_press.
  apply rf_press, rf_nil.
Qed.

Ltac release_first_step :=
  match goal with
  | |- release_first (obind _ _).1 => apply release_first_obind; intros
  | |- release_first (match ?d !! ?k with _ => _ end).1 => destruct (d !! k)
  | |- release_first (if ?b then _ else _).1 => destruct b
  | |- release_first (eval _).1 => apply rf_nil
  | |- release_first (oret _).1 => apply rf_nil
  | |- release_first (emit _).1 => simpl; no_press
  end.

Lemma release_first_press_item (item : pyval) :
  release_first (press_item item).1.
Proof.
  destruct item as [z|q|s|codes|d|l|]; unfold press_item;
    try (simpl; no_press).
  - repeat release_first_step.
  - apply release_first_for_each, release_first_press_code.
  - repeat release_first_step.
Qed.

Lemma release_first_press_sequence (sequence : list pyval) :
  release_first (press_sequence sequence).1.
Proof. apply release_first_for_each, release_first_press_item. Qed.

(** What [release_first] says, spelled out on positions. *)
Lemma release_first_split (cs pre post : list call) (c : Z) :
  release_first cs → cs = pre ++ ConsumerPress c :: post →
  ∃ pre', pre = pre' ++ [ConsumerRelease].
Proof.
  intros H. revert pre.
  induction H as [|c0 cs H IH|x cs Hx H IH]; intros pre E.
  - by destruct pre.
  - destruct pre as [|y [|y' pre]]; simpl in E.
    + discriminate.
    + injection E as <- _ _. by exists [].
    + injection E as <- <- E. destruct (IH pre E) as [p ->].
      by exists (ConsumerRelease :: ConsumerPress c0 :: p).
  - destruct pre as [|y pre]; simpl in E.
    + injection E as -> _. by destruct (Hx c).
    + injection E as <- E. destruct (IH pre E) as [p ->]. by exists (x :: p).
Qed.

Lemma media_step_other (d : device) (x : call) :
  (∀ c, x ≠ ConsumerPress c) →
  (size (media (device_step d x)) ≤ size (media d))%nat.
Proof.
  intros Hx. destruct d, x; cbn [device_step media]; try lia.
  - by destruct (Hx code).
  - rewrite size_empty. lia.
Qed.

Lemma release_first_media (cs : list call) (d : device) (n : nat) :
  release_first cs → (size (media d) ≤ 1)%nat →
  (size (media (run_calls (take n cs) d)) ≤ 1)%nat.
Proof.
  intros H. revert d n.
  induction H as [|c cs H IH|x cs Hx H IH]; intros d n Hd.
  - by destruct n.
  - destruct n as [|[|n]]; cbn [take run_calls foldl]; [done| |].
    + destruct d; cbn [device_step media]. rewrite size_empty. lia.
    + apply IH. destruct d; cbn [device_step media].
      rewrite (right_id_L ∅ (∪)), size_singleton. lia.
  - destruct n as [|n]; cbn [take run_calls foldl]; [done|].
    apply IH. pose proof (media_step_other d x Hx). lia.
Qed.

(** C10: while a sequence is played, every [consumer_control.press] comes
    right after a [consumer_control.release] (also the first one), and so,
    from a state with at most one consumer control code held, at most one
    is held after each call. *)
Theorem media_release_before_press
    (sequence : list pyval) (d : device) (n : nat) :
  (size (media d) ≤ 1)%nat →
  (∀ pre c post,
     (press_sequence sequence).1 = pre ++ ConsumerPress c :: post →
     ∃ pre', pre = pre' ++ [ConsumerRelease])
  ∧ (size (media (run_calls (take n (press_sequence sequence).1) d)) ≤ 1)%nat.
Proof.
  intros Hd. split.
  - intros pre c post E.
    eapply release_first_split; [apply release_first_press_sequence | done].
  - by apply release_first_media; [apply release_first_press_sequence|].
Qed.

Lemma media_release_before_press_witness :
  (∀ pre c post,
     (press_sequence [PList [PInt 0xE9; PFloat (1 # 10); PInt 0xEA]]).1
       = pre ++ ConsumerPress c :: post →
     ∃ pre', pre = pre' ++ [ConsumerRelease])
  ∧ (size (media (run_calls
       (take 2 (press_sequence [PList [PInt 0xE9; PFloat (1 # 10); PInt 0xEA]]).1)
       power_on)) ≤ 1)%nat.
Proof.
  apply (media_release_before_press
           [PList [PInt 0xE9; PFloat (1 # 10); PInt 0xEA]] power_on 2).
  cbn [power_on media]. rewrite size_empty. lia.
Defined.

(** ** Items of no recognized kind *)

Lemma press_item_unrecognized (item : pyval) :
  recognized_item item = false → press_item item = oret tt.
Proof. by destruct item. Qed.

Lemma press_code_unrecognized (code : pyval) :
  recognized_code code = false → press_code code = oret tt.
Proof. by destruct code. Qed.

(** C8, as the code has it: an item that is none of int, float, str, list
    or dict makes no call and raises nothing, the sequence plays as if the
    item were not there, and the devices are as they were; the same holds
    inside a list item for an element that is neither int nor float. *)
Theorem unrecognized_item_skipped
    (item code : pyval) (pre post codes1 codes2 : list pyval) (d : device) :
  recognized_item item = false →
  recognized_code code = false →
  press_item item = ([], Ok tt)
  ∧ run_calls (press_item item).1 d = d
  ∧ press_sequence (pre ++ item :: post) = press_sequence (pre ++ post)
  ∧ press_item (PList (codes1 ++ code :: codes2))
    = press_item (PList (codes1 ++ codes2)).
Proof.
  intros Hi Hc. repeat split.
  - by apply press_item_unrecognized.
  - by rewrite press_item_unrecognized.
  - by apply for_each_skip, press_item_unrecognized.
  - by apply for_each_skip, press_code_unrecognized.
Qed.

Lemma unrecognized_item_skipped_witness :
  press_item PNone = ([], Ok tt)
  ∧ run_calls (press_item PNone).1 power_on = power_on
  ∧ press_sequence ([PInt 4] ++ PNone :: [PInt 5])
    = press_sequence ([PInt 4] ++ [PInt 5])
  ∧ press_item (PList ([PInt 0xE9] ++ PStr "x" :: [PInt 0xEA]))
    = press_item (PList ([PInt 0xE9] ++ [PInt 0xEA])).
Proof.
  apply (unrecognized_item_skipped PNone (PStr "x")); reflexivity.
Defined.

(** C8, as stated, fails for a malformed item of a recognized kind: a dict
    whose ['buttons'] is a string raises TypeError at [item['buttons'] >= 0],
    no call is made and the key after it is never pressed. *)
Lemma malformed_item_aborts :
  press_sequence [PDict {["buttons" := PStr "left"]}; PInt 4]
  = ([], Err TypeError)
  ∧ press_sequence [PInt 4] = ([KeyPress 4], Ok tt).
Proof. split; reflexivity. Qed.

(** ** Releasing twice *)

Lemma ldiff_idem (b m : Z) : Z.ldiff (Z.ldiff b m) m = Z.ldiff b m.
Proof.
  apply Z.bits_inj'. intros n _. rewrite !Z.ldiff_spec.
  by destruct (Z.testbit b n), (Z.testbit m n).
Qed.

Lemma ldiff_comm (b m1 m2 : Z) :
  Z.ldiff (Z.ldiff b m1) m2 = Z.ldiff (Z.ldiff b m2) m1.
Proof.
  apply Z.bits_inj'. intros n _. rewrite !Z.ldiff_spec.
  by destruct (Z.testbit b n), (Z.testbit m1 n), (Z.testbit m2 n).
Qed.

Lemma difference_idem (ks : gset Z) (k : Z) : ks ∖ {[k]} ∖ {[k]} = ks ∖ {[k]}.
Proof.
  apply set_eq. intros x. rewrite !elem_of_difference. tauto.
Qed.

Lemma difference_comm (ks : gset Z) (k1 k2 : Z) :
  ks ∖ {[k1]} ∖ {[k2]} = ks ∖ {[k2]} ∖ {[k1]}.
Proof.
  apply set_eq. intros x. rewrite !elem_of_difference. tauto.
Qed.

Ltac device_eq :=
  cbn [device_step]; f_equal;
  first [ reflexivity | apply ldiff_idem | apply ldiff_comm
        | apply difference_idem | apply difference_comm ].

Lemma releasing_idem (d : device) (c : call) :
  releasing c = true → device_step (device_step d c) c = device_step d c.
Proof. intros Hc. destruct d, c; try discriminate; device_eq. Qed.

Lemma releasing_comm (d : device) (c1 c2 : call) :
  releasing c1 = true → releasing c2 = true →
  device_step (device_step d c1) c2 = device_step (device_step d c2) c1.
Proof.
  intros H1 H2. destruct d, c1; try discriminate;
    destruct c2; try discriminate; device_eq.
Qed.

Lemma run_calls_cons (c : call) (cs : list call) (d : device) :
  run_calls (c :: cs) d = run_calls cs (device_step d c).
Proof. reflexivity. Qed.

Lemma run_calls_app (cs1 cs2 : list call) (d : device) :
  run_calls (cs1 ++ cs2) d = run_calls cs2 (run_calls cs1 d).
Proof. apply foldl_app. Qed.

(** A call that commutes with every call of a list can be moved across it. *)
Lemma run_calls_move (P : call → Prop) (c : call) (cs : list call) :
  (∀ d x, P x →
     device_step (device_step d c) x = device_step (device_step d x) c) →
  Forall P cs →
  ∀ d, run_calls cs (device_step d c) = device_step (run_calls cs d) c.
Proof.
  intros Hc Hcs. induction Hcs as [|x cs Hx _ IH]; intros d; [done|].
  rewrite !run_calls_cons, Hc by done. apply IH.
Qed.

Lemma releasing_run_idem (cs : list call) (d : device) :
  Forall (λ c, releasing c = true) cs →
  run_calls cs (run_calls cs d) = run_calls cs d.
Proof.
  intros Hcs. revert d. induction Hcs as [|c cs Hc Hcs IH]; intros d; [done|].
  assert (Hmove : ∀ d', run_calls cs (device_step d' c)
                         = device_step (run_calls cs d') c).
  { apply (run_calls_move (λ x, releasing x = true)); [|done].
    intros; by apply releasing_comm. }
  rewrite !run_calls_cons, Hmove, IH, <- Hmove.
  by rewrite releasing_idem.
Qed.

(** Restoring a key's color twice is restoring it once, and it commutes
    with letting go of keys, buttons, codes and the tone. *)
Lemma restore_idem (key_number : nat) (col : Z) (d : device) :
  run_calls (restore_calls key_number col)
    (run_calls (restore_calls key_number col) d)
  = run_calls (restore_calls key_number col) d.
Proof.
  destruct d. unfold restore_calls. rewrite !run_calls_cons.
  cbn [run_calls foldl device_step].
  rewrite list_insert_insert_eq. reflexivity.
Qed.

Lemma restore_comm (key_number : nat) (col : Z) (cs : list call) (d : device) :
  Forall (λ c, releasing c = true) cs →
  run_calls cs (run_calls (restore_calls key_number col) d)
  = run_calls (restore_calls key_number col) (run_calls cs d).
Proof.
  intros Hcs. unfold restore_calls. rewrite !run_calls_cons.
  change (run_calls [] ?x) with x.
  rewrite !(run_calls_move (λ x, releasing x = true) _ cs); try done.
  - intros [] x Hx; destruct x; try discriminate; reflexivity.
  - intros [] x Hx; destruct x; try discriminate; reflexivity.
Qed.

Lemma for_each_Forall {A} (P : call → Prop) (body : A → Out unit) (l : list A) :
  (∀ x, Forall P (body x).1) → Forall P (for_each body l).1.
Proof.
  intros Hb. induction l as [|x l IH]; [constructor|].
  change (for_each body (x :: l)) with (obind (body x) (λ _, for_each body l)).
  rewrite obind_calls. apply Forall_app. split; [apply Hb|].
  destruct (body x).2; [apply IH | constructor].
Qed.

Lemma release_item_releasing (item : pyval) :
  Forall (λ c, releasing c = true) (release_item item).1.
Proof.
  destruct item as [z|q|s|codes|d|l|]; cbn [release_item];
    try by constructor.
  - destruct (0 <=? z); repeat constructor.
  - destruct (d !! "buttons") as [b|].
    + destruct b as [z|q| | | | |]; try by constructor.
      * cbn. destruct (0 <=? z); repeat constructor.
      * cbn. destruct (Qle_bool 0 q); repeat constructor.
    + destruct (d !! "tone"); repeat constructor.
Qed.

Lemma release_sequence_releasing (sequence : list pyval) :
  Forall (λ c, releasing c = true) (release_sequence sequence).1.
Proof. apply for_each_Forall, release_item_releasing. Qed.

(** The calls of the key-up branch: those of the release loop, then, unless
    the loop raised, the consumer control release and the key's color. *)
Lemma release_edge_calls (b : binding) (key_number : nat) :
  release_edge b key_number
  = match release_sequence (sequence b) with
    | (rs, Ok _) =>
        (rs ++ [ConsumerRelease]
            ++ (if bool_decide (key_number < 12)%nat
                then restore_calls key_number (color b) else []),
         Ok tt)
    | (rs, Err e) => (rs, Err e)
    end.
Proof.
  unfold release_edge.
  destruct (release_sequence (sequence b)) as [rs [[]|e]]; [|reflexivity].
  by destruct (bool_decide (key_number < 12)%nat).
Qed.

(** C3: handling the release of a key twice in a row leaves the devices
    (keys, mouse buttons, consumer control, tone, pixels, display) as
    handling it once does. *)
Theorem release_edge_idempotent (b : binding) (key_number : nat) (d : device) :
  run_calls
    (obind (release_edge b key_number) (λ _, release_edge b key_number)).1 d
  = run_calls (release_edge b key_number).1 d.
Proof.
  rewrite obind_calls, release_edge_calls.
  pose proof (release_sequence_releasing (sequence b)) as Hrs.
  destruct (release_sequence (sequence b)) as [rs [[]|e]]; cbn [fst snd] in *.
  - assert (Hq : Forall (λ c, releasing c = true) (rs ++ [ConsumerRelease])).
    { apply Forall_app. split; [done|]. by repeat constructor. }
    rewrite !(assoc_L (++) rs).
    set (qs := rs ++ [ConsumerRelease]) in *. clearbody qs.
    destruct (bool_decide (key_number < 12)%nat).
    + rewrite !run_calls_app, (restore_comm _ _ _ _ Hq).
      by rewrite restore_idem, releasing_run_idem.
    + rewrite !(right_id_L [] (++)), run_calls_app.
      by rewrite releasing_run_idem.
  - by rewrite (right_id_L [] (++)).
Qed.

(** ** Running computations on the world *)

Lemma mbind_ok {A B} (m : M A) (f : A → M B) (w w1 : World) (a : A) :
  m w = Some (Ok a, w1) → mbind m f w = f a w1.
Proof. intros H. unfold mbind. by rewrite H. Qed.

Lemma add_calls_nil (w : World) : add_calls [] w = w.
Proof. destruct w. cbn. by rewrite (right_id_L [] (++)). Qed.

Lemma add_calls_app (cs1 cs2 : list call) (w : World) :
  add_calls cs2 (add_calls cs1 w) = add_calls (cs1 ++ cs2) w.
Proof. destruct w. cbn. by rewrite (assoc_L (++)). Qed.

Lemma call_run (c : call) (w : World) :
  call_ c w = Some (Ok tt, add_calls [c] w).
Proof. reflexivity. Qed.

Lemma mfor_calls {A} (g : A → call) (body : A → M unit) (l : list A)
    (w : World) :
  (∀ x, body x = call_ (g x)) →
  mfor body l w = Some (Ok tt, add_calls (g <$> l) w).
Proof.
  intros Hb. revert w. induction l as [|x l IH]; intros w.
  - cbn. by rewrite add_calls_nil.
  - cbn [mfor]. rewrite (mbind_ok _ _ w (add_calls [g x] w) tt)
      by (rewrite Hb; apply call_run).
    by rewrite IH, add_calls_app.
Qed.

Lemma device_of_add_calls (cs : list call) (w : World) :
  device_of (add_calls cs w) = run_calls cs (device_of w).
Proof. destruct w. unfold device_of. cbn. apply run_calls_app. Qed.

(** ** No profiles *)

Lemma steps_halted (env : Env) (fuel : nat) (apps : list App) (n : nat)
    (w : World) :
  steps env fuel apps n Halted w = Some (Ok Halted, w).
Proof. induction n as [|n IH]; [reflexivity|]. cbn. apply IH. Qed.

(** C9: with no profile loaded the program writes 'NO MACRO FILES FOUND'
    to the title label, refreshes the display and halts: however many turns
    it is left to run, it makes these calls and no other, reads no input and
    never enters the main loop, and the display shows the message. *)
Theorem no_profiles_halt (env : Env) (fuel n : nat) (w : World) :
  program env fuel [] n w
  = Some (Ok Halted,
          add_calls [DisplayShow Menu;
                     SetLabel 13 "NO MACRO FILES FOUND";
                     DisplayRefresh] w)
  ∧ screen (device_of (add_calls [DisplayShow Menu;
                                  SetLabel 13 "NO MACRO FILES FOUND";
                                  DisplayRefresh] initial_world))
    = (Menu, <[13%nat:="NO MACRO FILES FOUND"]> (replicate 14 ""), 0%nat).
Proof.
  split; [|reflexivity].
  unfold program.
  erewrite mbind_ok; [apply steps_halted|].
  destruct w. cbn. by rewrite <- !(assoc_L (++)).
Qed.

(** ** The profile index *)

Lemma py_mod_pos (a n : Z) : 0 < n → py_mod a n = Ok (a mod n).
Proof. intros Hn. unfold py_mod. by destruct (Z.eqb_spec n 0); [lia|]. Qed.

Lemma py_index_in_range {A} (l : list A) (i : Z) :
  0 ≤ i < Z.of_nat (length l) → ∃ a, py_index l i = Ok a.
Proof.
  intros Hi. destruct (lookup_lt_is_Some_2 l (Z.to_nat i)) as [a Ha]; [lia|].
  exists a. unfold py_index.
  destruct (Z.ltb_spec i 0); [lia|].
  destruct (Z.leb_spec 0 i); [|lia].
  destruct (Z.ltb_spec i (Z.of_nat (length l))); [|lia].
  cbn. by rewrite Ha.
Qed.

(** Lines 196-199 when the encoder has moved: the profile index becomes
    [position % len(apps)] and the profile found there is switched to. *)
Lemma poll_encoder_moved (env : Env) (fuel : nat) (apps : list App)
    tr ai lp ls imf cip ne nm nu ng :
  (1 ≤ length apps)%nat →
  lp ≠ Some (encoder env ne) →
  ∃ app,
    py_index apps (encoder env ne mod Z.of_nat (length apps)) = Ok app
    ∧ poll_encoder env fuel apps (MkWorld tr ai lp ls imf cip ne nm nu ng)
      = mbind (switch env fuel app)
          (λ result, mbind (set_last_position (Some (encoder env ne)))
                       (λ _, mret result))
          (MkWorld tr (encoder env ne mod Z.of_nat (length apps))
                   lp ls imf cip (S ne) nm nu ng).
Proof.
  intros Hn Hlp.
  destruct (py_index_in_range apps
              (encoder env ne mod Z.of_nat (length apps))) as [app Happ].
  { apply Z.mod_pos_bound. lia. }
  exists app. split; [done|].
  unfold poll_encoder. cbn [mbind read_encoder get last_position].
  rewrite bool_decide_true by (by intros <-).
  cbn [mbind of_res]. rewrite py_mod_pos by lia.
  cbn [mbind set_app_index of_res]. by rewrite Happ.
Qed.

(** C7: with at least one profile loaded, [position % len(apps)] is
    defined for every encoder position, lies in [0, len(apps)), and
    [apps[app_index]] finds a profile. *)
Theorem profile_index_in_bounds (position : Z) (apps : list App) :
  (1 ≤ length apps)%nat →
  ∃ i app,
    py_mod position (Z.of_nat (length apps)) = Ok i
    ∧ i = position mod Z.of_nat (length apps)
    ∧ 0 ≤ i < Z.of_nat (length apps)
    ∧ py_index apps i = Ok app.
Proof.
  intros Hn.
  assert (Hi : 0 ≤ position mod Z.of_nat (length apps) < Z.of_nat (length apps))
    by (apply Z.mod_pos_bound; lia).
  destruct (py_index_in_range apps _ Hi) as [app Happ].
  exists (position mod Z.of_nat (length apps)), app.
  split; [apply py_mod_pos; lia|]. by repeat split; try lia.
Qed.

(** Position 3 with two profiles loaded: index 1. *)
Lemma profile_index_in_bounds_witness :
  ∃ i app,
    py_mod 3 (Z.of_nat (length [red_app; green_app])) = Ok i
    ∧ i = 3 mod Z.of_nat (length [red_app; green_app])
    ∧ 0 ≤ i < Z.of_nat (length [red_app; green_app])
    ∧ py_index [red_app; green_app] i = Ok app.
Proof. apply (profile_index_in_bounds 3 [red_app; green_app]). simpl. lia. Defined.

(** ** Edges with no macro *)

(** C6, as the code has it: in a turn of the main loop in which the
    encoder has not moved, an encoder button edge in a profile with fewer
    than 13 macros, or else a key event whose key has no macro, makes no
    call and leaves the profile index and the last encoder position as they
    were; [last_encoder_switch] holds the state of the button just read,
    which for a dropped key event is the state it held before. *)
Theorem unbound_edge_dropped
    (env : Env) (fuel : nat) (apps : list App) (app : App) (w : World) :
  last_position w = Some (encoder env (n_encoder w)) →
  py_index apps (app_index w) = Ok app →
  (encoder_switch env (S (n_update w)) ≠ last_encoder_switch w
   ∧ (length (macros app) < 13)%nat)
  ∨ (encoder_switch env (S (n_update w)) = last_encoder_switch w
     ∧ ∃ key_number pressed,
         key_event env (n_get w) = Some (key_number, pressed)
         ∧ (length (macros app) ≤ key_number)%nat) →
  ∃ w', main_loop_iteration env fuel apps w = Some (Ok tt, w')
    ∧ trace w' = trace w
    ∧ device_of w' = device_of w
    ∧ app_index w' = app_index w
    ∧ last_position w' = last_position w
    ∧ last_encoder_switch w' = encoder_switch env (S (n_update w)).
Proof.
  destruct w as [tr ai lp ls imf cip ne nm nu ng]. cbn [last_position
    n_encoder app_index n_update last_encoder_switch n_get].
  intros -> Happ Hedge.
  unfold main_loop_iteration, poll_encoder, poll_keys. cbn.
  rewrite bool_decide_false by (by intros []). cbn.
  destruct Hedge as [[Hsw Hlen]|(Hsw & k & p & Hev & Hlen)].
  - rewrite bool_decide_true by done. cbn.
    rewrite Happ. cbn. rewrite bool_decide_true by done.
    eexists. split; [reflexivity|]. by repeat split.
  - rewrite bool_decide_false by (by intros []). cbn.
    rewrite Hev. cbn. rewrite Happ. cbn. rewrite bool_decide_true by done.
    eexists. split; [reflexivity|]. by repeat split.
Qed.

Lemma unbound_edge_dropped_witness :
  ∃ w', main_loop_iteration idle_env 0 [red_app] idle_world = Some (Ok tt, w')
    ∧ trace w' = trace idle_world
    ∧ device_of w' = device_of idle_world
    ∧ app_index w' = app_index idle_world
    ∧ last_position w' = last_position idle_world
    ∧ last_encoder_switch w' = encoder_switch idle_env (S (n_update idle_world)).
Proof.
  apply (unbound_edge_dropped idle_env 0 [red_app] red_app idle_world).
  - reflexivity.
  - reflexivity.
  - left. split; [discriminate | cbn; lia].
Defined.

(** C6, as stated, fails for the encoder button: the edge is dropped, but
    [last_encoder_switch] goes from up to down. *)
Lemma encoder_button_edge_recorded :
  main_loop_iteration idle_env 0 [red_app] idle_world
  = Some (Ok tt, MkWorld [] 0 (Some 0) true None "" 1 0 1 0)
  ∧ last_encoder_switch idle_world = false.
Proof. split; reflexivity. Qed.

(** ** An interrupted switch *)

Lemma Qlt_bool_true (a b : Q) : (a < b)%Q → Qlt_bool a b = true.
Proof.
  intros H. unfold Qlt_bool. destruct (Qle_bool b a) eqn:E; [|done].
  apply Qle_bool_iff in E. by apply Qlt_not_le in H.
Qed.

Section Interrupted.

Variable env : Env.

Lemma show_frames_same (enc0 : Z) (frames : list nat)
    tr ai lp ls imf cip ne nm nu ng :
  (∀ j, (j < length frames)%nat → encoder env (ne + j) = enc0) →
  ∃ cs, Forall (λ c, animation_call c = true) cs
    ∧ show_frames env enc0 frames (MkWorld tr ai lp ls imf cip ne nm nu ng)
      = Some (Ok true,
              MkWorld (tr ++ cs) ai lp ls imf cip (ne + length frames) nm nu ng).
Proof.
  revert tr ne. induction frames as [|f frames IH]; intros tr ne Hsame.
  - exists []. split; [constructor|]. cbn.
    by rewrite (right_id_L [] (++)), Nat.add_0_r.
  - cbn. rewrite bool_decide_false.
    2:{ intros Hne. apply Hne. rewrite <- (Hsame 0%nat) by (cbn; lia).
        by rewrite Nat.add_0_r. }
    cbn.
    destruct (IH ((tr ++ [SpriteFrame f]) ++ [DisplayRefresh]
                    ++ [Sleep FRAME_DURATION]) (S ne)) as (cs & Hcs & E).
    { intros j Hj. rewrite <- (Hsame (S j)) by (cbn; lia). f_equal. lia. }
    exists ([SpriteFrame f; DisplayRefresh; Sleep FRAME_DURATION] ++ cs).
    split; [by repeat constructor|].
    rewrite <- !(assoc_L (++)) in *. cbn in *. rewrite E.
    repeat f_equal. lia.
Qed.

Lemma show_frames_change (enc0 : Z) (frames : list nat) (j : nat)
    tr ai lp ls imf cip ne nm nu ng :
  (j < length frames)%nat →
  (∀ j', (j' < j)%nat → encoder env (ne + j') = enc0) →
  encoder env (ne + j) ≠ enc0 →
  ∃ cs, Forall (λ c, animation_call c = true) cs
    ∧ show_frames env enc0 frames (MkWorld tr ai lp ls imf cip ne nm nu ng)
      = Some (Ok false,
              MkWorld (tr ++ cs) ai lp ls imf cip (ne + S j) nm nu ng).
Proof.
  revert j tr ne.
  induction frames as [|f frames IH]; intros j tr ne Hj Hsame Hdiff.
  - cbn in Hj. lia.
  - cbn. destruct j as [|j].
    + rewrite Nat.add_0_r in Hdiff. rewrite bool_decide_true by done. cbn.
      exists [SpriteFrame f; DisplayRefresh].
      split; [by repeat constructor|].
      rewrite <- !(assoc_L (++)). repeat f_equal. lia.
    + rewrite bool_decide_false.
      2:{ intros Hne. apply Hne. rewrite <- (Hsame 0%nat) by lia.
          by rewrite Nat.add_0_r. }
      cbn.
      destruct (IH j ((tr ++ [SpriteFrame f]) ++ [DisplayRefresh]
                        ++ [Sleep FRAME_DURATION]) (S ne))
        as (cs & Hcs & E).
      { cbn in Hj. lia. }
      { intros j' Hj'. rewrite <- (Hsame (S j')) by lia. f_equal. lia. }
      { intros Heq. apply Hdiff. rewrite <- Heq. f_equal. lia. }
      exists ([SpriteFrame f; DisplayRefresh; Sleep FRAME_DURATION] ++ cs).
      split; [by repeat constructor|].
      rewrite <- !(assoc_L (++)) in *. cbn in *. rewrite E.
      repeat f_equal. lia.
Qed.

(** The loop ends with [loop = False] when the poll number [k] (from 0) is
    the first to see the encoder away from [enc_position] and the icon's
    time is not up at the start of any round up to that poll. *)
Lemma animate_interrupted (fuel k : nat) (enc0 : Z) (t0 : Q)
    (frames : list nat) tr ai lp ls imf cip ne nm nu ng :
  frames ≠ [] →
  (k < fuel)%nat →
  (∀ j, (j < k)%nat → encoder env (ne + j) = enc0) →
  encoder env (ne + k) ≠ enc0 →
  (∀ i, (i * length frames ≤ k)%nat →
        (monotonic env (nm + i) < t0 + ICON_DURATION)%Q) →
  ∃ cs ne' nm', Forall (λ c, animation_call c = true) cs
    ∧ animate env fuel enc0 t0 frames
        (MkWorld tr ai lp ls imf cip ne nm nu ng)
      = Some (Ok false, MkWorld (tr ++ cs) ai lp ls imf cip ne' nm' nu ng).
Proof.
  intros Hfr. revert k tr ne nm.
  induction fuel as [|fuel IH]; intros k tr ne nm Hk Hsame Hdiff Htime; [lia|].
  cbn. rewrite Qlt_bool_true.
  2:{ rewrite <- (Nat.add_0_r nm). apply Htime. lia. }
  destruct (decide (k < length frames)%nat) as [Hlt|Hge].
  - destruct (show_frames_change enc0 frames k tr ai lp ls imf cip ne
                (S nm) nu ng Hlt Hsame Hdiff) as (cs & Hcs & E).
    rewrite (mbind_ok _ _ _ _ _ E). by exists cs, (ne + S k)%nat, (S nm).
  - destruct (show_frames_same enc0 frames tr ai lp ls imf cip ne
                (S nm) nu ng) as (cs & Hcs & E).
    { intros j Hj. apply Hsame. lia. }
    rewrite (mbind_ok _ _ _ _ _ E).
    assert (0 < length frames)%nat by (destruct frames; [done | cbn; lia]).
    destruct (IH (k - length frames)%nat (tr ++ cs)
                 (ne + length frames)%nat (S nm))
      as (cs' & ne' & nm' & Hcs' & E').
    + lia.
    + intros j Hj. rewrite <- (Hsame (length frames + j)%nat) by lia.
      f_equal. lia.
    + intros Heq. apply Hdiff. rewrite <- Heq. f_equal. lia.
    + intros i Hi. replace (S nm + i)%nat with (nm + S i)%nat by lia.
      apply Htime. cbn. lia.
    + exists (cs ++ cs'), ne', nm'. split; [by apply Forall_app|].
      rewrite E'. by rewrite (assoc_L (++)).
Qed.

Lemma frame_count_pos (image_file_path : string) :
  1 ≤ frame_count env image_file_path.
Proof.
  unfold frame_count.
  destruct (Z.ltb_spec 1 (bitmap_height env image_file_path / ICON_HEIGHT)); lia.
Qed.

Lemma display_image_interrupted (fuel k : nat) (icon_file : string)
    tr ai lp ls imf cip ne nm nu ng :
  stat_ok env (image_path env icon_file) = true →
  (k < fuel)%nat →
  (∀ j, (j < k)%nat → encoder env (S ne + j) = encoder env ne) →
  encoder env (S ne + k) ≠ encoder env ne →
  (∀ i, (i * Z.to_nat (frame_count env (image_path env icon_file)) ≤ k)%nat →
        (monotonic env (S nm + i) < monotonic env nm + ICON_DURATION)%Q) →
  ∃ cs imf' cip' ne' nm', Forall (λ c, animation_call c = true) cs
    ∧ display_image env fuel icon_file
        (MkWorld tr ai lp ls imf cip ne nm nu ng)
      = Some (Ok false,
              MkWorld (tr ++ DisplayShow (Sprite (image_path env icon_file)) :: cs)
                      ai lp ls imf' cip' ne' nm' nu ng).
Proof.
  intros Himg Hk Hsame Hdiff Htime.
  pose proof (frame_count_pos (image_path env icon_file)) as Hfc.
  assert (Hfr : seq 0 (Z.to_nat (frame_count env (image_path env icon_file))) ≠ []).
  { destruct (Z.to_nat (frame_count env (image_path env icon_file))) eqn:E;
      [lia | done]. }
  unfold display_image. cbn.
  set (p := image_path env icon_file) in *.
  assert (Hanim : ∀ imf' cip',
    ∃ cs ne' nm', Forall (λ c, animation_call c = true) cs
    ∧ animate env fuel (encoder env ne) (monotonic env nm)
        (seq 0 (Z.to_nat (frame_count env p)))
        (MkWorld (tr ++ [DisplayShow (Sprite p)]) ai lp ls imf' cip'
                 (S ne) (S nm) nu ng)
      = Some (Ok false,
              MkWorld ((tr ++ [DisplayShow (Sprite p)]) ++ cs) ai lp ls imf' cip'
                      ne' nm' nu ng)).
  { intros imf' cip'. apply (animate_interrupted fuel k); try done.
    by rewrite length_seq. }
  destruct (bool_decide (cip ≠ p)).
  - cbn. unfold open_file. rewrite Himg. cbn.
    destruct (Hanim (Some p) p) as (cs & ne' & nm' & Hcs & E).
    rewrite E. cbn. exists cs, (Some p), p, ne', nm'.
    split; [done|]. by rewrite <- (assoc_L (++)).
  - cbn.
    destruct (Hanim imf cip) as (cs & ne' & nm' & Hcs & E).
    rewrite E. cbn. exists cs, imf, cip, ne', nm'.
    split; [done|]. by rewrite <- (assoc_L (++)).
Qed.

End Interrupted.

(** ** What calls leave alone *)

Lemma run_calls_preserve {A} (f : device → A) (P : call → Prop)
    (cs : list call) (d : device) :
  (∀ d c, P c → f (device_step d c) = f d) →
  Forall P cs → f (run_calls cs d) = f d.
Proof.
  intros Hf Hcs. revert d. induction Hcs as [|c cs Hc _ IH]; intros d; [done|].
  rewrite run_calls_cons, IH. by apply Hf.
Qed.

Lemma labels_preserved (cs : list call) (d : device) :
  Forall (λ c, sets_label c = false) cs → labels (run_calls cs d) = labels d.
Proof.
  apply (run_calls_preserve labels). by intros [] [].
Qed.

Lemma leds_preserved (cs : list call) (d : device) :
  Forall (λ c, sets_pixels c = false) cs → leds (run_calls cs d) = leds d.
Proof.
  apply (run_calls_preserve leds). by intros [] [].
Qed.


Lemma pixel_buf_length (cs : list call) (d : device) :
  length (pixel_buf (run_calls cs d)) = length (pixel_buf d).
Proof.
  apply (run_calls_preserve (λ d, length (pixel_buf d)) (λ _, True)).
  - intros [] []; cbn; try done. by rewrite length_insert.
  - by apply Forall_forall.
Qed.

Lemma pixel_buf_color_calls (self : App) (d : device) :
  length (pixel_buf d) = 12%nat →
  pixel_buf (run_calls (color_calls self) d) = profile_colors self.
Proof.
  destruct d as [ks bs md tn pb ld lb sh fr sc]. cbn [pixel_buf]. intros Hlen.
  do 13 (destruct pb as [|? pb]; try discriminate Hlen).
  reflexivity.
Qed.

Lemma color_calls_body (self : App) (i : nat) :
  match macros self !! i with
  | Some b => call_ (PixelSet i (color b))
  | None => call_ (PixelSet i 0)
  end
  = call_ (PixelSet i match macros self !! i with
                      | Some b => color b
                      | None => 0
                      end).
Proof. by destruct (macros self !! i). Qed.

(** C2, as the code has it: when a poll of the encoder during the icon's
    presentation finds it away from where it was at the start, [App.switch]
    returns False and the label and name texts are those from before the
    call; the pixels, set before the icon is shown, have the colors of the
    profile switched to, and the display is left on the icon.  The poll
    number [k] (from 0) is the first to see the change, and the icon's time
    is not up at the start of any round of frames up to that poll. *)
Theorem switch_interrupted
    (env : Env) (fuel k : nat) (self : App) (w : World) :
  stat_ok env (image_path env (icon self)) = true →
  (k < fuel)%nat →
  (∀ j, (j < k)%nat →
        encoder env (S (n_encoder w) + j) = encoder env (n_encoder w)) →
  encoder env (S (n_encoder w) + k) ≠ encoder env (n_encoder w) →
  (∀ i, (i * Z.to_nat (frame_count env (image_path env (icon self))) ≤ k)%nat →
        (monotonic env (S (n_monotonic w) + i)
         < monotonic env (n_monotonic w) + ICON_DURATION)%Q) →
  ∃ w', switch env fuel self w = Some (Ok false, w')
    ∧ labels (device_of w') = labels (device_of w)
    ∧ leds (device_of w') = profile_colors self
    ∧ shown (device_of w') = Sprite (image_path env (icon self))
    ∧ app_index w' = app_index w
    ∧ last_position w' = last_position w
    ∧ last_encoder_switch w' = last_encoder_switch w.
Proof.
  intros Himg Hk Hsame Hdiff Htime.
  unfold switch.
  do 4 rewrite (mbind_ok _ _ _ _ _ (call_run _ _)).
  rewrite (mbind_ok _ _ _ _ _
             (mfor_calls _ _ _ _ (color_calls_body self))).
  rewrite (mbind_ok _ _ _ _ _ (call_run _ _)).
  rewrite !add_calls_app. fold (color_calls self).
  destruct w as [tr ai lp ls imf cip ne nm nu ng].
  cbn [n_encoder n_monotonic] in *.
  set (pre := [KeyReleaseAll] ++ [ConsumerRelease] ++ [MouseReleaseAll]
              ++ [StopTone] ++ color_calls self ++ [PixelsShow]).
  cbn [add_calls].
  destruct (display_image_interrupted env fuel k (icon self) (tr ++ pre)
              ai lp ls imf cip ne nm nu ng Himg Hk Hsame Hdiff Htime)
    as (cs & imf' & cip' & ne' & nm' & Hcs & E).
  rewrite (mbind_ok _ _ _ _ _ E). cbn [negb mret].
  eexists. split; [reflexivity|].
  unfold device_of. cbn [trace app_index last_position last_encoder_switch].
  set (d := run_calls tr power_on).
  set (p := image_path env (icon self)) in *.
  assert (Hquiet : Forall (λ c, sets_label c = false ∧ sets_pixels c = false)
                     (DisplayShow (Sprite p) :: cs)).
  { constructor; [done|]. eapply Forall_impl; [exact Hcs|].
    by intros []. }
  rewrite !run_calls_app. fold d.
  repeat split.
  - rewrite labels_preserved by (eapply Forall_impl; [exact Hquiet|]; by intros ? []).
    apply labels_preserved. subst pre. unfold color_calls.
    repeat (apply Forall_cons; split; [done|]). constructor.
  - rewrite leds_preserved by (eapply Forall_impl; [exact Hquiet|]; by intros ? []).
    subst pre.
    change ([KeyReleaseAll] ++ [ConsumerRelease] ++ [MouseReleaseAll]
              ++ [StopTone] ++ color_calls self ++ [PixelsShow])
      with (stop_calls ++ color_calls self ++ [PixelsShow]).
    rewrite !run_calls_app.
    assert (Hshow : ∀ d', leds (run_calls [PixelsShow] d') = pixel_buf d')
      by (by intros []).
    rewrite Hshow. apply pixel_buf_color_calls.
    rewrite pixel_buf_length. subst d. by rewrite pixel_buf_length.
  - rewrite run_calls_cons.
    rewrite (run_calls_preserve shown (λ c, animation_call c = true));
      [|by intros [] []|done].
    by destruct (run_calls pre d).
Qed.

Lemma red_active_started :
  startup turning_env 2 [red_app; green_app] initial_world
  = Some (Ok Running, red_active).
Proof. reflexivity. Qed.

Lemma switch_interrupted_witness :
  ∃ w', switch turning_env 2 green_app red_active = Some (Ok false, w')
    ∧ labels (device_of w') = labels (device_of red_active)
    ∧ leds (device_of w') = profile_colors green_app
    ∧ shown (device_of w') = Sprite (image_path turning_env (icon green_app))
    ∧ app_index w' = app_index red_active
    ∧ last_position w' = last_position red_active
    ∧ last_encoder_switch w' = last_encoder_switch red_active.
Proof.
  apply (switch_interrupted turning_env 2 1 green_app red_active).
  - reflexivity.
  - lia.
  - intros j Hj. assert (j = 0%nat) as -> by lia. reflexivity.
  - discriminate.
  - intros i _. reflexivity.
Defined.

(** C2, as stated, fails for the pixels: the red profile is active, the
    switch to the green one is interrupted by the encoder and returns False,
    and the first pixel has gone from red to green. *)
Lemma interrupted_switch_changes_leds :
  ∃ w', switch turning_env 2 green_app red_active = Some (Ok false, w')
    ∧ leds (device_of red_active) = 0xFF0000 :: replicate 11 0
    ∧ leds (device_of w') = 0x00FF00 :: replicate 11 0
    ∧ labels (device_of w') = labels (device_of red_active).
Proof. eexists. repeat split. Qed.

(** The same in the main loop: the turn that sees the encoder at 1 starts
    the switch to the green profile, the encoder moves on during the icon,
    and the turn ends with the green pixels, the red profile's labels, the
    new index and the new position recorded. *)
Lemma interrupted_switch_in_main_loop :
  ∃ w', main_loop_iteration turning_env 2 [red_app; green_app] red_active
        = Some (Ok tt, w')
    ∧ leds (device_of w') = 0x00FF00 :: replicate 11 0
    ∧ labels (device_of w') = labels (device_of red_active)
    ∧ labels (device_of w') !! 0%nat = Some "Copy"
    ∧ app_index w' = 1
    ∧ last_position w' = Some 1.
Proof. eexists. repeat split. Qed.

(** ** A dict item with both a button and a tone *)

(** C4 at [{'buttons': 1, 'tone': 440}]: the press loop starts the tone,
    the release loop lets go of the button and, the ['tone'] test being an
    [elif], does not stop the tone. *)
Theorem release_skips_tone_with_buttons :
  press_sequence [click_and_beep]
  = ([MousePress (PInt 1); MouseMove (PInt 0) (PInt 0) (PInt 0);
      StopTone; StartTone (PInt 440)], Ok tt)
  ∧ release_sequence [click_and_beep] = ([MouseRelease (PInt 1)], Ok tt)
  ∧ release_sequence [PDict {["tone" := PInt 440]}] = ([StopTone], Ok tt).
Proof. repeat split. Qed.

(** C1 at the same item, bound to the first key: after the key has gone
    down and up again the mouse button is released and the pixel restored,
    but the tone started by the press is still playing. *)
Theorem tone_left_playing :
  release_edge beep_binding 0
  = ([MouseRelease (PInt 1); ConsumerRelease;
      PixelSet 0 0xFF0000; PixelsShow], Ok tt)
  ∧ tone (run_calls (press_edge beep_binding 0).1 power_on)
    = Some (PInt 440)
  ∧ tone (run_calls (release_edge beep_binding 0).1
            (run_calls (press_edge beep_binding 0).1 power_on))
    = Some (PInt 440)
  ∧ buttons (run_calls (release_edge beep_binding 0).1
               (run_calls (press_edge beep_binding 0).1 power_on))
    = 0.
Proof. repeat split. Qed.

(** ** What a release does let go of

    Apart from the tone of a dict that also has ['buttons'], everything the
    played part of a sequence asserts is let go of by the key-up branch. *)

Lemma for_each_elem {A} (body : A → Out unit) (l : list A) (c : call) :
  c ∈ (for_each body l).1 → ∃ x, x ∈ l ∧ c ∈ (body x).1.
Proof.
  induction l as [|x l IH]; [by intros ?%elem_of_nil|].
  change (for_each body (x :: l)) with (obind (body x) (λ _, for_each body l)).
  rewrite obind_calls, elem_of_app. intros [Hc|Hc].
  - exists x. split; [left|done].
  - destruct (body x).2; [|by apply elem_of_nil in Hc].
    destruct (IH Hc) as (y & Hy & Hcy). exists y. split; [by right|done].
Qed.

Lemma for_each_ok_elem {A} (body : A → Out unit) (l : list A)
    (cs : list call) (x : A) (c : call) :
  for_each body l = (cs, Ok tt) → x ∈ l → c ∈ (body x).1 → c ∈ cs.
Proof.
  revert cs. induction l as [|y l IH]; intros cs E Hx Hc;
    [by apply elem_of_nil in Hx|].
  change (for_each body (y :: l))
    with (obind (body y) (λ _, for_each body l)) in E.
  unfold obind in E.
  destruct (body y) as [c1 [[]|e]] eqn:Ey; [|discriminate].
  destruct (for_each body l) as [c2 r] eqn:El.
  injection E as <- ->. apply elem_of_app.
  apply elem_of_cons in Hx as [->|Hx].
  - left. by rewrite Ey in Hc.
  - right. by apply (IH c2).
Qed.

(** Case analysis on the tests of the two loop bodies. *)
Ltac split_item H :=
  repeat (cbn [obind eval emit oret fst snd py_ge0 py_gt0 py_neg app] in H;
          match type of H with
          | context [match ?d !! ?k with _ => _ end] =>
              let v := fresh "v" in
              let E := fresh "E" in
              destruct (d !! k) as [v|] eqn:E
          | context [py_ge0 ?v] => destruct v
          | context [py_gt0 ?v] => destruct v
          | context [if ?b then _ else _] => destruct b eqn:?
          end);
  cbn [obind eval emit oret fst snd py_ge0 py_gt0 py_neg app] in H;
  repeat (rewrite ?elem_of_cons, ?elem_of_nil in H).

Lemma press_code_calls (code : pyval) (c : call) :
  c ∈ (press_code code).1 →
  c = ConsumerRelease ∨ (∃ k, c = ConsumerPress k) ∨ (∃ q, c = Sleep q).
Proof.
  destruct code; cbn; rewrite ?elem_of_cons, ?elem_of_nil; naive_solver.
Qed.

Lemma key_press_origin (item : pyval) (z : Z) :
  KeyPress z ∈ (press_item item).1 → item = PInt z ∧ 0 ≤ z.
Proof.
  destruct item as [z0|q|s|codes|d|l|]; cbn [press_item]; intros H.
  - destruct (Z.leb_spec 0 z0); cbn in H;
      apply list_elem_of_singleton in H; by simplify_eq.
  - by apply list_elem_of_singleton in H.
  - by apply list_elem_of_singleton in H.
  - apply for_each_elem in H as (code & _ & H).
    apply press_code_calls in H. naive_solver.
  - split_item H; naive_solver.
  - by apply elem_of_nil in H.
  - by apply elem_of_nil in H.
Qed.

Lemma mouse_press_origin (item : pyval) (v : pyval) :
  MousePress v ∈ (press_item item).1 →
  ∃ d, item = PDict d ∧ d !! "buttons" = Some v ∧ py_ge0 v = Ok true.
Proof.
  destruct item as [z0|q|s|codes|d|l|]; cbn [press_item]; intros H.
  - destruct (0 <=? z0); by apply list_elem_of_singleton in H.
  - by apply list_elem_of_singleton in H.
  - by apply list_elem_of_singleton in H.
  - apply for_each_elem in H as (code & _ & H).
    apply press_code_calls in H. naive_solver.
  - exists d. split; [done|].
    split_item H; try naive_solver;
      destruct H as [H|H]; try naive_solver;
      injection H as ->; cbn; by rewrite ?Heqb.
  - by apply elem_of_nil in H.
  - by apply elem_of_nil in H.
Qed.

Lemma start_tone_origin (item : pyval) (t : pyval) :
  StartTone t ∈ (press_item item).1 →
  ∃ d, item = PDict d ∧ d !! "tone" = Some t.
Proof.
  destruct item as [z0|q|s|codes|d|l|]; cbn [press_item]; intros H.
  - destruct (0 <=? z0); by apply list_elem_of_singleton in H.
  - by apply list_elem_of_singleton in H.
  - by apply list_elem_of_singleton in H.
  - apply for_each_elem in H as (code & _ & H).
    apply press_code_calls in H. naive_solver.
  - exists d. split; [done|]. split_item H; naive_solver.
  - by apply elem_of_nil in H.
  - by apply elem_of_nil in H.
Qed.

(** The release loop's answer to each of them. *)
Lemma release_item_key (z : Z) :
  0 ≤ z → release_item (PInt z) = ([KeyRelease z], Ok tt).
Proof. intros Hz. cbn. by destruct (Z.leb_spec 0 z); [|lia]. Qed.

Lemma release_item_buttons (d : gmap string pyval) (v : pyval) :
  d !! "buttons" = Some v → py_ge0 v = Ok true →
  release_item (PDict d) = ([MouseRelease v], Ok tt).
Proof. intros Hb Hge. cbn [release_item]. by rewrite Hb, Hge. Qed.

Lemma release_item_tone (d : gmap string pyval) (t : pyval) :
  d !! "buttons" = None → d !! "tone" = Some t →
  release_item (PDict d) = ([StopTone], Ok tt).
Proof. intros Hb Ht. cbn [release_item]. by rewrite Hb, Ht. Qed.

(** A state of affairs that one call brings about, and that no call short
    of a press or a tone start undoes, holds after any list of such calls
    that contains the one. *)
Lemma run_calls_kept (Q : device → Prop) (cs : list call) (d : device) :
  (∀ d c, asserting c = false → Q d → Q (device_step d c)) →
  Forall (λ c, asserting c = false) cs → Q d → Q (run_calls cs d).
Proof.
  intros Hkeep Hcs. revert d.
  induction Hcs as [|c cs Hc _ IH]; intros d Hd; [done|].
  rewrite run_calls_cons. by apply IH, Hkeep.
Qed.

Lemma run_calls_established (Q : device → Prop) (c0 : call)
    (cs : list call) (d : device) :
  (∀ d, Q (device_step d c0)) →
  (∀ d c, asserting c = false → Q d → Q (device_step d c)) →
  c0 ∈ cs → Forall (λ c, asserting c = false) cs → Q (run_calls cs d).
Proof.
  intros Hset Hkeep Hin Hcs. revert d Hin.
  induction Hcs as [|c cs Hc Hcs IH]; intros d Hin;
    [by apply elem_of_nil in Hin|].
  rewrite run_calls_cons. apply elem_of_cons in Hin as [->|Hin].
  - by apply run_calls_kept.
  - by apply IH.
Qed.

Lemma land_ldiff_same (b m : Z) : Z.land (Z.ldiff b m) m = 0.
Proof.
  apply Z.bits_inj'. intros n _.
  rewrite Z.land_spec, Z.ldiff_spec, Z.bits_0.
  by destruct (Z.testbit b n), (Z.testbit m n).
Qed.

Lemma land_ldiff_kept (b m m' : Z) :
  Z.land b m = 0 → Z.land (Z.ldiff b m') m = 0.
Proof.
  intros H. apply Z.bits_inj'. intros n _.
  assert (Hn : Z.testbit (Z.land b m) n = false)
    by (rewrite H; apply Z.bits_0).
  rewrite Z.land_spec in Hn.
  rewrite Z.land_spec, Z.ldiff_spec, Z.bits_0.
  by destruct (Z.testbit b n), (Z.testbit m n), (Z.testbit m' n).
Qed.

Lemma key_released (z : Z) (cs : list call) (d : device) :
  KeyRelease z ∈ cs → Forall (λ c, asserting c = false) cs →
  z ∉ keys (run_calls cs d).
Proof.
  apply (run_calls_established (λ d, z ∉ keys d)).
  - intros []. cbn. rewrite elem_of_difference, elem_of_singleton. tauto.
  - intros [] []; cbn; try done.
    rewrite elem_of_difference. tauto.
Qed.

Lemma buttons_released (v : pyval) (cs : list call) (d : device) :
  MouseRelease v ∈ cs → Forall (λ c, asserting c = false) cs →
  Z.land (buttons (run_calls cs d)) (mask_of v) = 0.
Proof.
  apply (run_calls_established (λ d, Z.land (buttons d) (mask_of v) = 0)).
  - intros []. cbn. apply land_ldiff_same.
  - intros [] []; cbn; try done.
    intros _. apply land_ldiff_kept.
Qed.

Lemma media_released (cs : list call) (d : device) :
  ConsumerRelease ∈ cs → Forall (λ c, asserting c = false) cs →
  media (run_calls cs d) = ∅.
Proof.
  apply (run_calls_established (λ d, media d = ∅)).
  - by intros [].
  - by intros [] [].
Qed.

Lemma tone_stopped (cs : list call) (d : device) :
  StopTone ∈ cs → Forall (λ c, asserting c = false) cs →
  tone (run_calls cs d) = None.
Proof.
  apply (run_calls_established (λ d, tone d = None)).
  - by intros [].
  - by intros [] [].
Qed.

Lemma release_edge_quiet (b : binding) (key_number : nat) :
  Forall (λ c, asserting c = false) (release_edge b key_number).1.
Proof.
  rewrite release_edge_calls.
  pose proof (release_sequence_releasing (sequence b)) as Hrs.
  assert (Hq : ∀ l, Forall (λ c, releasing c = true) l →
                    Forall (λ c, asserting c = false) l).
  { intros l Hl. eapply Forall_impl; [exact Hl|]. by intros []. }
  destruct (release_sequence (sequence b)) as [rs [[]|e]]; cbn [fst snd] in *;
    [|by apply Hq].
  apply Forall_app. split; [by apply Hq|].
  destruct (bool_decide (key_number < 12)%nat); by repeat constructor.
Qed.

(** X1: whatever part of its sequence a key has played, once the key-up
    branch has run to its end no key and no mouse button pressed by that part is
    held, no consumer control code is held, and, if no dict of the sequence
    has both ['tone'] and ['buttons'], no tone it started is playing. *)
Lemma release_edge_no_leak (b : binding) (key_number n : nat)
    (cs : list call) (d : device) :
  release_edge b key_number = (cs, Ok tt) →
  let played := (press_sequence (take n (sequence b))).1 in
  let d' := run_calls cs (run_calls played d) in
  (∀ z, KeyPress z ∈ played → z ∉ keys d')
  ∧ (∀ v, MousePress v ∈ played → Z.land (buttons d') (mask_of v) = 0)
  ∧ media d' = ∅
  ∧ ((∀ dict, PDict dict ∈ sequence b → is_Some (dict !! "tone") →
              dict !! "buttons" = None) →
     ∀ t, StartTone t ∈ played → tone d' = None).
Proof.
  intros E played d'.
  pose proof (release_edge_quiet b key_number) as Hquiet.
  rewrite E in Hquiet. cbn [fst] in Hquiet.
  rewrite release_edge_calls in E.
  destruct (release_sequence (sequence b)) as [rs [[]|e]] eqn:Ers;
    [|discriminate].
  injection E as E.
  assert (Hrs : ∀ item c, item ∈ take n (sequence b) →
                  c ∈ (release_item item).1 → c ∈ cs).
  { intros item c Hitem Hc. rewrite <- E. apply elem_of_app. left.
    apply (for_each_ok_elem release_item (sequence b) rs item c Ers);
      [|done].
    by apply (subseteq_take n). }
  repeat split.
  - intros z Hz. apply for_each_elem in Hz as (item & Hitem & Hz).
    apply key_press_origin in Hz as [-> Hz].
    apply key_released; [|done].
    apply (Hrs _ _ Hitem). rewrite release_item_key by done. by left.
  - intros v Hv. apply for_each_elem in Hv as (item & Hitem & Hv).
    apply mouse_press_origin in Hv as (dict & -> & Hb & Hge).
    apply buttons_released; [|done].
    apply (Hrs _ _ Hitem). rewrite (release_item_buttons _ v) by done.
    by left.
  - apply media_released; [|done].
    rewrite <- E. apply elem_of_app. right. by left.
  - intros Hsplit t Ht. apply for_each_elem in Ht as (item & Hitem & Ht).
    apply start_tone_origin in Ht as (dict & -> & Htone).
    apply tone_stopped; [|done].
    apply (Hrs _ _ Hitem).
    rewrite (release_item_tone _ t); [by left| |done].
    apply Hsplit; [by apply (subseteq_take n)|by exists t].
Qed.

(** The release loop on a dict item: the mouse button is released exactly
    when ['buttons'] is there and not negative, the tone is stopped exactly
    when ['tone'] is there and ['buttons'] is not. *)
Lemma release_item_mouse_release (d : gmap string pyval) (v : pyval) :
  MouseRelease v ∈ (release_item (PDict d)).1
  ↔ d !! "buttons" = Some v ∧ py_ge0 v = Ok true.
Proof.
  split.
  - cbn [release_item]. intros H. split_item H; try naive_solver;
      destruct H as [H|[]]; injection H as ->; cbn; by rewrite Heqb.
  - intros [Hb Hge]. rewrite (release_item_buttons d v) by done. by left.
Qed.

Lemma release_item_stop_tone (d : gmap string pyval) :
  StopTone ∈ (release_item (PDict d)).1
  ↔ d !! "buttons" = None ∧ is_Some (d !! "tone").
Proof.
  split.
  - cbn [release_item]. intros H. split_item H; naive_solver.
  - intros [Hb [t Ht]]. rewrite (release_item_tone d t) by done. by left.
Qed.

(** A key-up branch that runs to its end has released the consumer
    control, whatever the sequence. *)
Lemma release_edge_releases_media (b : binding) (key_number : nat)
    (cs : list call) (d : device) :
  release_edge b key_number = (cs, Ok tt) →
  ConsumerRelease ∈ cs ∧ media (run_calls cs d) = ∅.
Proof.
  intros E.
  pose proof (release_edge_quiet b key_number) as Hquiet.
  rewrite E in Hquiet. cbn [fst] in Hquiet.
  assert (Hin : ConsumerRelease ∈ cs).
  { rewrite release_edge_calls in E.
    destruct (release_sequence (sequence b)) as [rs [[]|e]]; [|discriminate].
    injection E as <-. apply elem_of_app. right. by left. }
  split; [done|]. by apply media_released.
Qed.

Lemma release_edge_no_leak_witness :
  let cs := (release_edge mixed_binding 0).1 in
  let played := (press_sequence (take 5 (sequence mixed_binding))).1 in
  let d' := run_calls cs (run_calls played power_on) in
  (∀ z, KeyPress z ∈ played → z ∉ keys d')
  ∧ (∀ v, MousePress v ∈ played → Z.land (buttons d') (mask_of v) = 0)
  ∧ media d' = ∅
  ∧ ((∀ dict, PDict dict ∈ sequence mixed_binding → is_Some (dict !! "tone") →
              dict !! "buttons" = None) →
     ∀ t, StartTone t ∈ played → tone d' = None).
Proof.
  apply (release_edge_no_leak mixed_binding 0 5
           (release_edge mixed_binding 0).1 power_on).
  reflexivity.
Defined.

(** ** What the two loops can and cannot do *)

Lemma obind_Forall {A B} (P : call → Prop) (m : Out A) (f : A → Out B) :
  Forall P m.1 → (∀ a, Forall P (f a).1) → Forall P (obind m f).1.
Proof.
  intros Hm Hf. rewrite obind_calls. apply Forall_app. split; [done|].
  destruct m.2; [apply Hf | constructor].
Qed.

Ltac forall_step :=
  match goal with
  | |- Forall _ (obind _ _).1 => apply obind_Forall; intros
  | |- Forall _ (match ?d !! ?k with _ => _ end).1 => destruct (d !! k)
  | |- Forall _ (if ?b then _ else _).1 => destruct b
  | |- Forall _ (eval _).1 => constructor
  | |- Forall _ (oret _).1 => constructor
  | |- Forall _ (emit _).1 => by repeat constructor
  end.

Lemma press_item_play_calls (item : pyval) :
  Forall (λ c, play_call c = true) (press_item item).1.
Proof.
  destruct item as [z|q|s|codes|d|l|]; unfold press_item;
    try by repeat constructor.
  - repeat forall_step.
  - apply for_each_Forall. intros []; by repeat constructor.
  - repeat forall_step.
Qed.

Lemma press_sequence_play_calls (sequence : list pyval) :
  Forall (λ c, play_call c = true) (press_sequence sequence).1.
Proof. apply for_each_Forall, press_item_play_calls. Qed.

Lemma release_edge_only_releases_aux (b : binding) (key_number : nat) :
  Forall (λ c, release_call c = true) (release_edge b key_number).1
  ∧ ∀ i col, PixelSet i col ∈ (release_edge b key_number).1 →
             i = key_number ∧ col = color b ∧ (key_number < 12)%nat.
Proof.
  rewrite release_edge_calls.
  pose proof (release_sequence_releasing (sequence b)) as Hrs.
  assert (Hq : ∀ l, Forall (λ c, releasing c = true) l →
                    Forall (λ c, release_call c = true) l).
  { intros l Hl. eapply Forall_impl; [exact Hl|]. by intros []. }
  assert (Hnp : ∀ l i col, Forall (λ c, releasing c = true) l →
                           PixelSet i col ∉ l).
  { intros l i col Hl Hin. rewrite Forall_forall in Hl.
    by specialize (Hl _ Hin). }
  destruct (release_sequence (sequence b)) as [rs [[]|e]]; cbn [fst snd] in *.
  - split.
    + apply Forall_app. split; [by apply Hq|].
      destruct (bool_decide (key_number < 12)%nat); by repeat constructor.
    + intros i col [Hin|Hin]%elem_of_app; [by apply Hnp in Hin|].
      destruct (bool_decide_reflect (key_number < 12)%nat) as [Hlt|Hge];
        unfold restore_calls in Hin; cbn in Hin;
        rewrite ?elem_of_cons, ?elem_of_nil in Hin; naive_solver.
  - split; [by apply Hq|]. intros i col Hin. by apply Hnp in Hin.
Qed.

(** X2: the key-up branch only lets go: whatever the sequence, its calls
    are key releases, mouse button releases, [stop_tone], the consumer
    control release and the write of the key's own pixel; it never presses,
    types, moves the mouse, sleeps or plays. *)
Theorem release_edge_only_releases (b : binding) (key_number : nat) :
  Forall (λ c, release_call c = true) (release_edge b key_number).1
  ∧ ∀ i col, PixelSet i col ∈ (release_edge b key_number).1 →
             i = key_number ∧ col = color b ∧ (key_number < 12)%nat.
Proof. apply release_edge_only_releases_aux. Qed.

Lemma loops_results (sequence : list pyval) :
  Forall (λ c, play_call c = true) (press_sequence sequence).1
  ∧ ((press_sequence sequence).2 = Ok tt
     ∨ (press_sequence sequence).2 = Err TypeError)
  ∧ ((release_sequence sequence).2 = Ok tt
     ∨ (release_sequence sequence).2 = Err TypeError).
Proof.
  assert (Hfor : ∀ body : pyval → Out unit,
            (∀ x, (body x).2 = Ok tt ∨ (body x).2 = Err TypeError) →
            ∀ l, (for_each body l).2 = Ok tt
                 ∨ (for_each body l).2 = Err TypeError).
  { intros body Hb l. induction l as [|x l IH]; [by left|].
    change (for_each body (x :: l))
      with (obind (body x) (λ _, for_each body l)).
    unfold obind. destruct (Hb x) as [Hx|Hx];
      destruct (body x) as [c1 r1]; cbn in Hx; subst r1; [|by right].
    by destruct (for_each body l). }
  split; [apply press_sequence_play_calls|]. split.
  - apply Hfor. intros [z|q|s|codes|d|l|]; cbn [press_item]; try by left.
    + destruct (0 <=? z); by left.
    + apply Hfor. intros []; by left.
    + destruct (d !! "buttons") as [[]|], (d !! "tone") as [[]|],
        (d !! "play"); cbn;
        repeat match goal with
          | |- context [if ?b then _ else _] => destruct b; cbn
          end; auto.
  - apply Hfor. intros [z|q|s|codes|d|l|]; cbn [release_item]; try by left.
    + destruct (0 <=? z); by left.
    + destruct (d !! "buttons") as [[]|], (d !! "tone"); cbn;
        repeat match goal with
          | |- context [if ?b then _ else _] => destruct b; cbn
          end; auto.
Qed.


(** ** Keys and buttons of other macros *)

Lemma key_release_origin (item : pyval) (z : Z) :
  KeyRelease z ∈ (release_item item).1 → item = PInt z ∧ 0 ≤ z.
Proof.
  destruct item as [z0|q|s|codes|d|l|]; cbn [release_item]; intros H;
    try by apply elem_of_nil in H.
  - destruct (Z.leb_spec 0 z0); cbn in H;
      [|by apply elem_of_nil in H].
    apply list_elem_of_singleton in H. by simplify_eq.
  - split_item H; naive_solver.
Qed.

Lemma release_edge_key_release (b : binding) (key_number : nat) (z : Z) :
  KeyRelease z ∈ (release_edge b key_number).1 → PInt z ∈ sequence b.
Proof.
  rewrite release_edge_calls. intros H.
  assert (Hrs : KeyRelease z ∈ (release_sequence (sequence b)).1).
  { destruct (release_sequence (sequence b)) as [rs [[]|e]];
      cbn [fst snd] in *; [|done].
    apply elem_of_app in H as [H|H]; [done|].
    destruct (bool_decide (key_number < 12)%nat); unfold restore_calls in H;
      cbn in H; rewrite ?elem_of_cons, ?elem_of_nil in H; naive_solver. }
  apply for_each_elem in Hrs as (item & Hitem & Hrs).
  by apply key_release_origin in Hrs as [-> _].
Qed.

Lemma release_edge_mouse_release (b : binding) (key_number : nat) (v : pyval) :
  MouseRelease v ∈ (release_edge b key_number).1 →
  ∃ dict, PDict dict ∈ sequence b ∧ dict !! "buttons" = Some v.
Proof.
  rewrite release_edge_calls. intros H.
  assert (Hrs : MouseRelease v ∈ (release_sequence (sequence b)).1).
  { destruct (release_sequence (sequence b)) as [rs [[]|e]];
      cbn [fst snd] in *; [|done].
    apply elem_of_app in H as [H|H]; [done|].
    destruct (bool_decide (key_number < 12)%nat); unfold restore_calls in H;
      cbn in H; rewrite ?elem_of_cons, ?elem_of_nil in H; naive_solver. }
  apply for_each_elem in Hrs as (item & Hitem & Hrs).
  destruct item as [z0|q|s|codes|d|l|]; cbn [release_item] in Hrs;
    try by apply elem_of_nil in Hrs.
  - destruct (0 <=? z0); cbn in Hrs;
      rewrite ?elem_of_cons, ?elem_of_nil in Hrs; naive_solver.
  - exists d. split; [done|].
    by apply release_item_mouse_release in Hrs as [? _].
Qed.

Lemma keys_untouched (z : Z) (cs : list call) (d : device) :
  Forall (λ c, release_call c = true ∧ c ≠ KeyRelease z) cs →
  z ∈ keys (run_calls cs d) ↔ z ∈ keys d.
Proof.
  intros Hcs. revert d. induction Hcs as [|c cs [Hc Hz] _ IH]; intros d; [done|].
  rewrite run_calls_cons, IH.
  destruct d, c; try discriminate Hc; cbn; try done.
  rewrite elem_of_difference, elem_of_singleton. naive_solver.
Qed.

Lemma button_bit_untouched (n : Z) (cs : list call) (d : device) :
  Forall (λ c, release_call c = true
               ∧ ∀ v, c = MouseRelease v → Z.testbit (mask_of v) n = false) cs →
  Z.testbit (buttons (run_calls cs d)) n = Z.testbit (buttons d) n.
Proof.
  intros Hcs. revert d. induction Hcs as [|c cs [Hc Hv] _ IH]; intros d; [done|].
  rewrite run_calls_cons, IH.
  destruct d, c; try discriminate Hc; cbn; try done.
  match goal with
  | Hm : ∀ v, MouseRelease ?m = _ → _ |- _ =>
      rewrite Z.ldiff_spec, (Hm m eq_refl)
  end.
  apply andb_true_r.
Qed.

(** X4: the key-up branch leaves the keys and buttons of other macros
    alone: a key whose code is not an item of the sequence is held after
    it exactly if it was held before, and a mouse button bit that is in no
    ['buttons'] mask of the sequence is as it was. *)
Theorem release_edge_rollover
    (b : binding) (key_number : nat) (d : device) (z n : Z) :
  PInt z ∉ sequence b →
  (∀ dict v, PDict dict ∈ sequence b → dict !! "buttons" = Some v →
             Z.testbit (mask_of v) n = false) →
  (z ∈ keys (run_calls (release_edge b key_number).1 d) ↔ z ∈ keys d)
  ∧ Z.testbit (buttons (run_calls (release_edge b key_number).1 d)) n
    = Z.testbit (buttons d) n.
Proof.
  intros Hz Hn.
  destruct (release_edge_only_releases_aux b key_number) as [Hkind _].
  split.
  - apply keys_untouched. rewrite Forall_forall in *.
    intros c Hc. split; [by apply Hkind|]. intros ->.
    by apply release_edge_key_release in Hc.
  - apply button_bit_untouched. rewrite Forall_forall in *.
    intros c Hc. split; [by apply Hkind|]. intros v ->.
    apply release_edge_mouse_release in Hc as (dict & Hdict & Hb).
    by apply (Hn dict).
Qed.

Lemma release_edge_rollover_witness :
  (225 ∈ keys (run_calls (release_edge mixed_binding 0).1 held_by_other)
   ↔ 225 ∈ keys held_by_other)
  ∧ Z.testbit (buttons (run_calls (release_edge mixed_binding 0).1
                          held_by_other)) 1
    = Z.testbit (buttons held_by_other) 1.
Proof.
  apply (release_edge_rollover mixed_binding 0 held_by_other 225 1).
  - intros H. unfold mixed_binding in H. cbn [sequence] in H.
    repeat (apply elem_of_cons in H as [H|H]; [discriminate|]).
    by apply elem_of_nil in H.
  - intros dict v H Hb. unfold mixed_binding in H. cbn [sequence] in H.
    repeat (apply elem_of_cons in H as [H|H];
            [try discriminate; injection H as ->; vm_compute in Hb;
             try discriminate; injection Hb as <-; reflexivity|]).
    by apply elem_of_nil in H.
Defined.

(** ** A sequence that played through can be released *)

Lemma release_item_ok (item : pyval) :
  (press_item item).2 = Ok tt → (release_item item).2 = Ok tt.
Proof.
  destruct item as [z|q|s|codes|d|l|]; cbn [press_item release_item];
    try done.
  - intros _. by destruct (0 <=? z).
  - destruct (d !! "buttons") as [[z|q| | | | |]|];
      try (cbn; discriminate); intros _; cbn.
    + by destruct (0 <=? z).
    + by destruct (Qle_bool 0 q).
    + by destruct (d !! "tone").
Qed.

Lemma for_each_ok {A} (body body' : A → Out unit) (l : list A) :
  (∀ x, (body x).2 = Ok tt → (body' x).2 = Ok tt) →
  (for_each body l).2 = Ok tt → (for_each body' l).2 = Ok tt.
Proof.
  intros Hb. induction l as [|x l IH]; [done|].
  change (for_each body (x :: l)) with (obind (body x) (λ _, for_each body l)).
  change (for_each body' (x :: l))
    with (obind (body' x) (λ _, for_each body' l)).
  unfold obind. specialize (Hb x).
  destruct (body x) as [c1 [[]|e1]]; [|discriminate].
  destruct (body' x) as [c2 r2]. cbn in Hb. rewrite Hb by done.
  destruct (for_each body l) as [c3 r3], (for_each body' l) as [c4 r4].
  cbn in *. auto.
Qed.

(** X5: if the press loop ran through a sequence without raising, the
    release loop does too, and the whole key-up branch runs to its end: a
    key that could be pressed can always be released. *)
Theorem release_runs_when_press_ran
    (b : binding) (key_number : nat) (cs : list call) :
  press_edge b key_number = (cs, Ok tt) →
  ∃ rs, release_edge b key_number = (rs, Ok tt).
Proof.
  intros E.
  assert (Hp : (press_sequence (sequence b)).2 = Ok tt).
  { unfold press_edge, obind in E.
    destruct (bool_decide (key_number < 12)%nat); cbn in E;
      destruct (press_sequence (sequence b)) as [c r]; by simplify_eq. }
  apply (for_each_ok press_item release_item _ release_item_ok) in Hp.
  rewrite release_edge_calls. fold (release_sequence (sequence b)) in Hp.
  destruct (release_sequence (sequence b)) as [rs r]. cbn in Hp. subst r.
  eauto.
Qed.

Lemma release_runs_when_press_ran_witness :
  ∃ rs, release_edge mixed_binding 0 = (rs, Ok tt).
Proof.
  apply (release_runs_when_press_ran mixed_binding 0
           (press_edge mixed_binding 0).1).
  reflexivity.
Defined.

(** ** The consumer control code a list item ends on *)



(** ** The pixel of a key *)

Lemma press_edge_calls (b : binding) (key_number : nat) :
  (press_edge b key_number).1
  = (if bool_decide (key_number < 12)%nat
     then restore_calls key_number 0xFFFFFF else [])
    ++ (press_sequence (sequence b)).1.
Proof.
  unfold press_edge. rewrite obind_calls.
  by destruct (bool_decide (key_number < 12)%nat).
Qed.




(** ** Any run of the icon presentation

    What [show_frames], [animate], [display_image] and [App.switch] do
    whenever they return, whatever the inputs. *)

Section Runs.

Variable env : Env.

Lemma show_frames_run (enc0 : Z) (frames : list nat)
    tr ai lp ls imf cip ne nm nu ng r w' :
  show_frames env enc0 frames (MkWorld tr ai lp ls imf cip ne nm nu ng)
  = Some (r, w') →
  ∃ cs ne' loop,
    Forall (λ c, animation_call c = true) cs
    ∧ r = Ok loop
    ∧ w' = MkWorld (tr ++ cs) ai lp ls imf cip ne' nm nu ng
    ∧ if loop : bool
      then ne' = (ne + length frames)%nat
           ∧ ∀ j, (ne ≤ j < ne')%nat → encoder env j = enc0
      else (ne < ne' ≤ ne + length frames)%nat
           ∧ encoder env (pred ne') ≠ enc0
           ∧ ∀ j, (ne ≤ j < pred ne')%nat → encoder env j = enc0.
Proof.
  revert tr ne r w'. induction frames as [|f frames IH]; intros tr ne r w' E.
  - cbn in E. injection E as <- <-. exists [], ne, true.
    rewrite (right_id_L [] (++)). repeat split; [constructor|cbn; lia|].
    intros j Hj. cbn in Hj. lia.
  - cbn in E. destruct (decide (encoder env ne = enc0)) as [Heq|Hne].
    + rewrite bool_decide_false in E by (by intros []).
      cbn in E. apply IH in E as (cs & ne' & loop & Hcs & -> & -> & Hloop).
      exists ([SpriteFrame f; DisplayRefresh; Sleep FRAME_DURATION] ++ cs),
        ne', loop.
      split; [by repeat constructor|]. split; [done|].
      split; [by rewrite <- !(assoc_L (++))|].
      destruct loop.
      * destruct Hloop as [-> Hsame]. split; [cbn; lia|].
        intros j Hj. destruct (decide (j = ne)) as [->|]; [done|].
        apply Hsame. lia.
      * destruct Hloop as (Hlt & Hdiff & Hsame). split; [cbn; lia|].
        split; [done|]. intros j Hj.
        destruct (decide (j = ne)) as [->|]; [done|]. apply Hsame. lia.
    + rewrite bool_decide_true in E by done. cbn in E.
      injection E as <- <-.
      exists [SpriteFrame f; DisplayRefresh], (S ne), false.
      split; [by repeat constructor|]. split; [done|].
      split; [by rewrite <- !(assoc_L (++))|].
      cbn. repeat split; try lia; done.
Qed.

Lemma animate_run (fuel : nat) (enc0 : Z) (t0 : Q) (frames : list nat)
    tr ai lp ls imf cip ne nm nu ng r w' :
  animate env fuel enc0 t0 frames (MkWorld tr ai lp ls imf cip ne nm nu ng)
  = Some (r, w') →
  ∃ cs ne' nm' loop,
    Forall (λ c, animation_call c = true) cs
    ∧ r = Ok loop
    ∧ w' = MkWorld (tr ++ cs) ai lp ls imf cip ne' nm' nu ng
    ∧ (nm < nm')%nat
    ∧ if loop : bool
      then (ne ≤ ne')%nat
           ∧ (∀ j, (ne ≤ j < ne')%nat → encoder env j = enc0)
           ∧ Qlt_bool (monotonic env (pred nm')) (t0 + ICON_DURATION) = false
      else (ne < ne')%nat
           ∧ encoder env (pred ne') ≠ enc0
           ∧ ∀ j, (ne ≤ j < pred ne')%nat → encoder env j = enc0.
Proof.
  revert tr ne nm r w'.
  induction fuel as [|fuel IH]; intros tr ne nm r w' E; [discriminate|].
  cbn in E.
  destruct (Qlt_bool (monotonic env nm) (t0 + ICON_DURATION)) eqn:Hclk.
  - cbn in E.
    destruct (show_frames env enc0 frames
                (MkWorld tr ai lp ls imf cip ne (S nm) nu ng))
      as [[r1 w1]|] eqn:Efr; [|discriminate].
    apply show_frames_run in Efr as (cs & ne1 & loop & Hcs & -> & -> & Hloop).
    destruct loop.
    + destruct Hloop as [-> Hsame]. cbn in E.
      apply IH in E as (cs' & ne' & nm' & loop' & Hcs' & -> & -> & Hnm & Hl).
      exists (cs ++ cs'), ne', nm', loop'.
      split; [by apply Forall_app|]. split; [done|].
      split; [by rewrite (assoc_L (++))|]. split; [lia|].
      destruct loop'.
      * destruct Hl as (Hle & Hsame' & Hend). repeat split; [lia| |done].
        intros j Hj.
        destruct (decide (j < ne + length frames)%nat);
          [apply Hsame | apply Hsame']; lia.
      * destruct Hl as (Hlt & Hdiff & Hsame'). repeat split; [lia|done|].
        intros j Hj.
        destruct (decide (j < ne + length frames)%nat);
          [apply Hsame | apply Hsame']; lia.
    + cbn in E. injection E as <- <-.
      exists cs, ne1, (S nm), false.
      destruct Hloop as (Hlt & Hdiff & Hsame).
      repeat split; try done; lia.
  - cbn in E. injection E as <- <-. exists [], ne, (S nm), true.
    rewrite (right_id_L [] (++)).
    repeat split; try done; lia.
Qed.

Lemma animate_result (fuel : nat) (enc0 : Z) (t0 : Q) (frames : list nat)
    tr ai lp ls imf cip ne nm nu ng r w' :
  mbind (animate env fuel enc0 t0 frames)
    (λ loop, if negb loop then mret false else mret true)
    (MkWorld tr ai lp ls imf cip ne nm nu ng) = Some (r, w') →
  ∃ loop, r = Ok loop
    ∧ animate env fuel enc0 t0 frames
        (MkWorld tr ai lp ls imf cip ne nm nu ng) = Some (Ok loop, w').
Proof.
  intros E. cbn in E.
  destruct (animate env fuel enc0 t0 frames _) as [[[loop|e] w1]|] eqn:Ea;
    [| |discriminate].
  - exists loop. by destruct loop; cbn in E; simplify_eq.
  - apply animate_run in Ea as (? & ? & ? & ? & _ & ? & _). discriminate.
Qed.

Lemma display_image_run (fuel : nat) (icon_file : string)
    tr ai lp ls imf cip ne nm nu ng r w' :
  display_image env fuel icon_file (MkWorld tr ai lp ls imf cip ne nm nu ng)
  = Some (r, w') →
  let p := image_path env icon_file in
  (r = Err OSError ∧ stat_ok env p = false
   ∧ w' = MkWorld tr ai lp ls None p (S ne) nm nu ng)
  ∨ ∃ cs imf' ne' nm' loop,
      r = Ok loop
      ∧ Forall (λ c, animation_call c = true) cs
      ∧ w' = MkWorld (tr ++ DisplayShow (Sprite p) :: cs) ai lp ls
                     imf' p ne' nm' nu ng
      ∧ (imf' = Some p ∨ (cip = p ∧ imf' = imf))
      ∧ (S nm < nm')%nat
      ∧ if loop : bool
        then (S ne ≤ ne')%nat
             ∧ (∀ j, (S ne ≤ j < ne')%nat → encoder env j = encoder env ne)
             ∧ Qlt_bool (monotonic env (pred nm'))
                        (monotonic env nm + ICON_DURATION) = false
        else (S ne < ne')%nat
             ∧ encoder env (pred ne') ≠ encoder env ne
             ∧ ∀ j, (S ne ≤ j < pred ne')%nat →
                    encoder env j = encoder env ne.
Proof.
  intros E p. unfold display_image in E. cbn in E. fold p in E.
  assert (Hanim : ∀ imf', (imf' = Some p ∨ (cip = p ∧ imf' = imf)) →
    mbind (animate env fuel (encoder env ne) (monotonic env nm)
             (seq 0 (Z.to_nat (frame_count env p))))
      (λ loop, if negb loop then mret false else mret true)
      (MkWorld (tr ++ [DisplayShow (Sprite p)]) ai lp ls imf' p
               (S ne) (S nm) nu ng) = Some (r, w') →
    ∃ cs imf'' ne' nm' loop,
      r = Ok loop
      ∧ Forall (λ c, animation_call c = true) cs
      ∧ w' = MkWorld (tr ++ DisplayShow (Sprite p) :: cs) ai lp ls
                     imf'' p ne' nm' nu ng
      ∧ (imf'' = Some p ∨ (cip = p ∧ imf'' = imf))
      ∧ (S nm < nm')%nat
      ∧ if loop : bool
        then (S ne ≤ ne')%nat
             ∧ (∀ j, (S ne ≤ j < ne')%nat → encoder env j = encoder env ne)
             ∧ Qlt_bool (monotonic env (pred nm'))
                        (monotonic env nm + ICON_DURATION) = false
        else (S ne < ne')%nat
             ∧ encoder env (pred ne') ≠ encoder env ne
             ∧ ∀ j, (S ne ≤ j < pred ne')%nat →
                    encoder env j = encoder env ne).
  { intros imf' Himf Ha.
    apply animate_result in Ha as (loop & -> & Ha).
    apply animate_run in Ha
      as (cs & ne' & nm' & loop' & Hcs & [= <-] & -> & Hnm & Hl).
    exists cs, imf', ne', nm', loop.
    split; [done|]. split; [done|].
    split; [by rewrite <- (assoc_L (++))|]. by repeat split. }
  destruct (decide (cip = p)) as [Hcip|Hcip].
  - rewrite bool_decide_false in E by (by intros []). rewrite Hcip in E.
    right. apply (Hanim imf); [by right|]. exact E.
  - rewrite bool_decide_true in E by done. cbn in E.
    unfold open_file in E. destruct (stat_ok env p) eqn:Hstat.
    + right. apply (Hanim (Some p)); [by left|]. exact E.
    + left. cbn in E. by simplify_eq.
Qed.

Lemma label_calls_body (self : App) (i : nat) :
  match macros self !! i with
  | Some b => call_ (SetLabel i (label b))
  | None => call_ (SetLabel i "")
  end
  = call_ (SetLabel i match macros self !! i with
                      | Some b => label b
                      | None => ""
                      end).
Proof. by destruct (macros self !! i). Qed.

(** Every run of [App.switch]: the four releases, the twelve pixel writes
    and the show come first; then the icon is presented; OSError is the
    only exception; the labels and the menu follow exactly when the result
    is True. *)
Lemma switch_run (fuel : nat) (self : App) (w w' : World) (r : res bool) :
  switch env fuel self w = Some (r, w') →
  let p := image_path env (icon self) in
  ∃ cs,
    trace w' = trace w ++ stop_calls ++ color_calls self ++ [PixelsShow] ++ cs
    ∧ app_index w' = app_index w
    ∧ last_position w' = last_position w
    ∧ last_encoder_switch w' = last_encoder_switch w
    ∧ n_update w' = n_update w
    ∧ n_get w' = n_get w
    ∧ current_image_path w' = p
    ∧ match r with
      | Err e => e = OSError ∧ cs = [] ∧ stat_ok env p = false
      | Ok result =>
          ∃ an, Forall (λ c, animation_call c = true) an
            ∧ cs = DisplayShow (Sprite p) :: an
                   ++ (if result then label_calls self ++ menu_calls else [])
            ∧ (S (n_encoder w) ≤ n_encoder w')%nat
            ∧ if result : bool
              then ∀ j, (S (n_encoder w) ≤ j < n_encoder w')%nat →
                        encoder env j = encoder env (n_encoder w)
              else (S (n_encoder w) < n_encoder w')%nat
                   ∧ encoder env (pred (n_encoder w'))
                     ≠ encoder env (n_encoder w)
      end.
Proof.
  intros E p. unfold switch in E.
  do 4 rewrite (mbind_ok _ _ _ _ _ (call_run _ _)) in E.
  rewrite (mbind_ok _ _ _ _ _
             (mfor_calls _ _ _ _ (color_calls_body self))) in E.
  rewrite (mbind_ok _ _ _ _ _ (call_run _ _)) in E.
  rewrite !add_calls_app in E. fold (color_calls self) in E.
  change ([KeyReleaseAll] ++ [ConsumerRelease] ++ [MouseReleaseAll]
            ++ [StopTone] ++ color_calls self ++ [PixelsShow])
    with (stop_calls ++ color_calls self ++ [PixelsShow]) in E.
  set (pre := stop_calls ++ color_calls self ++ [PixelsShow]) in *.
  destruct w as [tr ai lp ls imf cip ne nm nu ng].
  cbn [add_calls trace app_index last_position last_encoder_switch
       n_update n_get n_encoder] in *.
  unfold mbind at 1 in E.
  destruct (display_image env fuel (icon self) _) as [[r1 w1]|] eqn:Ed;
    [|discriminate].
  apply display_image_run in Ed
    as [(-> & Hstat & ->)
       |(an & imf' & ne' & nm' & loop & -> & Han & -> & _ & _ & Hl)].
  - injection E as <- <-. exists [].
    cbn [trace app_index last_position last_encoder_switch n_update n_get
         current_image_path].
    split; [subst pre; by rewrite (right_id_L [] (++))|]. by repeat split.
  - fold p in E. destruct loop; cbn [negb] in E.
    + rewrite (mbind_ok _ _ _ _ _
                 (mfor_calls _ _ _ _ (label_calls_body self))) in E.
      do 3 rewrite (mbind_ok _ _ _ _ _ (call_run _ _)) in E.
      rewrite !add_calls_app in E. cbn [add_calls mret] in E.
      injection E as <- <-.
      exists (DisplayShow (Sprite p) :: an ++ label_calls self ++ menu_calls).
      cbn [trace app_index last_position last_encoder_switch n_update n_get
           current_image_path n_encoder].
      split.
      { rewrite <- !(assoc_L (++)). reflexivity. }
      do 6 (split; [done|]). exists an.
      destruct Hl as (Hle & Hsame & _). by repeat split.
    + cbn [mret] in E. injection E as <- <-.
      exists (DisplayShow (Sprite p) :: an).
      cbn [trace app_index last_position last_encoder_switch n_update n_get
           current_image_path n_encoder].
      split.
      { rewrite <- !(assoc_L (++)). reflexivity. }
      do 6 (split; [done|]). exists an.
      rewrite (right_id_L [] (++)).
      destruct Hl as (Hlt & Hdiff & _). repeat split; try done; lia.
Qed.

End Runs.

(** ** What a switch leaves behind *)

Lemma run_calls_kept_eq {A} (f : device → A) (a : A) (c0 : call)
    (cs : list call) (d : device) :
  (∀ d, f (device_step d c0) = a) →
  (∀ d c, asserting c = false → f d = a → f (device_step d c) = a) →
  c0 ∈ cs → Forall (λ c, asserting c = false) cs → f (run_calls cs d) = a.
Proof. apply (run_calls_established (λ d, f d = a)). Qed.

Lemma color_calls_quiet (self : App) :
  Forall (λ c, asserting c = false) (color_calls self).
Proof. unfold color_calls. by repeat constructor. Qed.

(** X8: whenever [App.switch] returns, completed, interrupted or with an
    exception, it has released everything: no key, no mouse button and no
    consumer control code is held, no tone plays, and the pixels show the
    colors of the profile switched to. *)
Theorem switch_releases_everything
    (env : Env) (fuel : nat) (self : App) (w w' : World) (r : res bool) :
  switch env fuel self w = Some (r, w') →
  keys (device_of w') = ∅
  ∧ buttons (device_of w') = 0
  ∧ media (device_of w') = ∅
  ∧ tone (device_of w') = None
  ∧ leds (device_of w') = profile_colors self.
Proof.
  intros E. apply switch_run in E
    as (cs & Htr & _ & _ & _ & _ & _ & _ & Hr).
  assert (Hcs : Forall (λ c, asserting c = false ∧ sets_pixels c = false) cs).
  { destruct r as [result|e].
    - destruct Hr as (an & Han & -> & _).
      constructor; [done|]. apply Forall_app. split.
      + eapply Forall_impl; [exact Han|]. by intros [].
      + destruct result; [|constructor].
        unfold label_calls, menu_calls. by repeat constructor.
    - destruct Hr as (_ & -> & _). constructor. }
  unfold device_of. rewrite Htr.
  set (d := run_calls (trace w) power_on).
  assert (Hall : Forall (λ c, asserting c = false)
            (stop_calls ++ color_calls self ++ [PixelsShow] ++ cs)).
  { apply Forall_app. split; [by repeat constructor|].
    apply Forall_app. split; [apply color_calls_quiet|].
    constructor; [done|]. eapply Forall_impl; [exact Hcs|]. by intros ? []. }
  rewrite run_calls_app. fold d.
  repeat split.
  - apply (run_calls_kept_eq keys ∅ KeyReleaseAll); try done.
    + by intros [].
    + intros [] []; cbn; try done. intros _ ->.
      apply set_eq. intros x. rewrite elem_of_difference.
      split; [tauto|]. by intros ?%not_elem_of_empty.
    + unfold stop_calls. apply elem_of_app. left. by left.
  - apply (run_calls_kept_eq buttons 0 MouseReleaseAll); try done.
    + by intros [].
    + intros [] []; cbn; try done. intros _ ->. apply Z.ldiff_0_l.
    + unfold stop_calls. apply elem_of_app. left. do 2 right. by left.
  - apply (run_calls_kept_eq media ∅ ConsumerRelease); try done.
    + by intros [].
    + by intros [] [].
    + unfold stop_calls. apply elem_of_app. left. right. by left.
  - apply (run_calls_kept_eq tone None StopTone); try done.
    + by intros [].
    + by intros [] [].
    + unfold stop_calls. apply elem_of_app. left. do 3 right. by left.
  - rewrite !run_calls_app.
    rewrite leds_preserved by (eapply Forall_impl; [exact Hcs|]; by intros ? []).
    assert (Hshow : ∀ d', leds (run_calls [PixelsShow] d') = pixel_buf d')
      by (by intros []).
    rewrite Hshow. apply pixel_buf_color_calls.
    rewrite pixel_buf_length. subst d. by rewrite pixel_buf_length.
Qed.

Lemma switch_releases_everything_witness :
  ∃ w', switch turning_env 2 green_app red_active = Some (Ok false, w')
    ∧ keys (device_of w') = ∅
    ∧ buttons (device_of w') = 0
    ∧ media (device_of w') = ∅
    ∧ tone (device_of w') = None
    ∧ leds (device_of w') = profile_colors green_app.
Proof.
  eexists. split; [reflexivity|].
  apply (switch_releases_everything turning_env 2 green_app red_active
           _ (Ok false)).
  reflexivity.
Defined.

Lemma labels_length (cs : list call) (d : device) :
  length (labels (run_calls cs d)) = length (labels d).
Proof.
  apply (run_calls_preserve (λ d, length (labels d)) (λ _, True)).
  - intros [] []; cbn; try done. by rewrite length_insert.
  - by apply Forall_forall.
Qed.

Lemma labels_label_calls (self : App) (d : device) :
  length (labels d) = 14%nat →
  take 12 (labels (run_calls (label_calls self) d)) = profile_labels self
  ∧ labels (run_calls (label_calls self) d) !! 12%nat = labels d !! 12%nat
  ∧ labels (run_calls (label_calls self) d) !! 13%nat = Some (name self).
Proof.
  destruct d as [ks bs md tn pb ld lb sh fr sc]. cbn [labels]. intros Hlen.
  do 15 (destruct lb as [|? lb]; try discriminate Hlen).
  by repeat split.
Qed.

(** X9: when [App.switch] returns True the twelve key labels carry the
    profile's labels (empty for keys without a macro), the title carries
    its name, and the display was refreshed on the menu with these texts;
    when it returns False no label was written and the display is left on
    the icon. *)
Theorem switch_result_on_display
    (env : Env) (fuel : nat) (self : App) (w w' : World) (result : bool) :
  switch env fuel self w = Some (Ok result, w') →
  if result
  then take 12 (labels (device_of w')) = profile_labels self
       ∧ labels (device_of w') !! 13%nat = Some (name self)
       ∧ shown (device_of w') = Menu
       ∧ screen (device_of w')
         = (Menu, labels (device_of w'), frame (device_of w'))
  else labels (device_of w') = labels (device_of w)
       ∧ shown (device_of w') = Sprite (image_path env (icon self)).
Proof.
  intros E. apply switch_run in E
    as (cs & Htr & _ & _ & _ & _ & _ & _ & an & Han & -> & _).
  unfold device_of. rewrite Htr.
  set (d := run_calls (trace w) power_on).
  set (p := image_path env (icon self)).
  assert (Hpre : Forall (λ c, sets_label c = false)
            (stop_calls ++ color_calls self ++ [PixelsShow]
             ++ [DisplayShow (Sprite p)] ++ an)).
  { apply Forall_app. split; [by repeat constructor|].
    apply Forall_app. split; [unfold color_calls; by repeat constructor|].
    constructor; [done|]. constructor; [done|].
    eapply Forall_impl; [exact Han|]. by intros []. }
  assert (Hshown : shown (run_calls
            (stop_calls ++ color_calls self ++ [PixelsShow]
             ++ [DisplayShow (Sprite p)] ++ an) d) = Sprite p).
  { rewrite !(assoc_L (++)), run_calls_app.
    rewrite (run_calls_preserve shown (λ c, animation_call c = true));
      [|by intros [] []|done].
    rewrite run_calls_app. by destruct (run_calls _ d). }
  rewrite run_calls_app. fold d.
  destruct result.
  - replace (stop_calls ++ color_calls self ++ [PixelsShow]
             ++ DisplayShow (Sprite p) :: an ++ label_calls self ++ menu_calls)
      with ((stop_calls ++ color_calls self ++ [PixelsShow]
             ++ [DisplayShow (Sprite p)] ++ an)
            ++ label_calls self ++ menu_calls)
      by (by rewrite <- !(assoc_L (++))).
    set (pre := stop_calls ++ color_calls self ++ [PixelsShow]
                ++ [DisplayShow (Sprite p)] ++ an) in *.
    rewrite !run_calls_app.
    set (d1 := run_calls pre d) in *.
    assert (Hmenu : ∀ d', labels (run_calls menu_calls d') = labels d'
                          ∧ shown (run_calls menu_calls d') = Menu
                          ∧ screen (run_calls menu_calls d')
                            = (Menu, labels d', frame (run_calls menu_calls d')))
      by (by intros []).
    destruct (Hmenu (run_calls (label_calls self) d1)) as (-> & -> & ->).
    destruct (labels_label_calls self d1) as (Htake & _ & H13).
    { subst d1. rewrite labels_length. subst d. by rewrite labels_length. }
    by rewrite Htake, H13.
  - rewrite (right_id_L [] (++)).
    change (DisplayShow (Sprite p) :: an) with ([DisplayShow (Sprite p)] ++ an).
    split; [by rewrite labels_preserved | done].
Qed.

Lemma switch_result_on_display_witness :
  ∃ w', switch resting_env 2 red_app initial_world = Some (Ok true, w')
    ∧ take 12 (labels (device_of w')) = profile_labels red_app
    ∧ labels (device_of w') !! 13%nat = Some (name red_app)
    ∧ shown (device_of w') = Menu
    ∧ screen (device_of w')
      = (Menu, labels (device_of w'), frame (device_of w')).
Proof.
  eexists. split; [reflexivity|].
  apply (switch_result_on_display resting_env 2 red_app initial_world _ true).
  reflexivity.
Defined.




(** ** A switch that is left alone completes *)


Section Completed.

Variable env : Env.



End Completed.


(** ** Key events and the encoder button in the main loop *)

Lemma py_index_nat {A} (l : list A) (k : nat) (a : A) :
  l !! k = Some a → py_index l (Z.of_nat k) = Ok a.
Proof.
  intros Hk. pose proof (lookup_lt_Some _ _ _ Hk) as Hlt.
  unfold py_index.
  destruct (Z.ltb_spec (Z.of_nat k) 0); [lia|].
  destruct (Z.leb_spec 0 (Z.of_nat k)); [|lia].
  destruct (Z.ltb_spec (Z.of_nat k) (Z.of_nat (length l))); [|lia].
  cbn. by rewrite Nat2Z.id, Hk.
Qed.

Lemma dispatch_bound (apps : list App) (app : App) (b : binding)
    (key_number : nat) (pressed : bool) (w : World) :
  py_index apps (app_index w) = Ok app →
  macros app !! key_number = Some b →
  dispatch apps key_number pressed w
  = lift (if pressed then press_edge b key_number
          else release_edge b key_number) w.
Proof.
  intros Happ Hb. unfold dispatch. cbn [mbind get of_res].
  rewrite Happ, (py_index_nat _ _ _ Hb). by destruct pressed.
Qed.

(** X12: in a turn in which the encoder has not moved and the encoder
    button has not changed, a key event for a key that has a macro runs
    the key-down branch of that macro when the key went down and its
    key-up branch when it went up, against the active profile; the event
    is taken off the queue and the loop's variables stay as they were. *)
Theorem key_event_dispatched
    (env : Env) (fuel : nat) (apps : list App) (app : App) (b : binding)
    (key_number : nat) (pressed : bool) (w : World) :
  last_position w = Some (encoder env (n_encoder w)) →
  encoder_switch env (S (n_update w)) = last_encoder_switch w →
  key_event env (n_get w) = Some (key_number, pressed) →
  py_index apps (app_index w) = Ok app →
  macros app !! key_number = Some b →
  ∃ w',
    main_loop_iteration env fuel apps w
    = Some ((if pressed then press_edge b key_number
             else release_edge b key_number).2, w')
    ∧ trace w'
      = trace w ++ (if pressed then press_edge b key_number
                    else release_edge b key_number).1
    ∧ n_get w' = S (n_get w)
    ∧ app_index w' = app_index w
    ∧ last_position w' = last_position w
    ∧ last_encoder_switch w' = last_encoder_switch w.
Proof.
  destruct w as [tr ai lp ls imf cip ne nm nu ng]. cbn [last_position
    n_encoder app_index n_update last_encoder_switch n_get trace].
  intros -> Hsw Hev Happ Hb.
  pose proof (lookup_lt_Some _ _ _ Hb) as Hlt.
  unfold main_loop_iteration, poll_encoder, poll_keys. cbn.
  rewrite bool_decide_false by (by intros []). cbn.
  rewrite bool_decide_false by (by intros []). cbn.
  rewrite Hev. cbn. rewrite Happ. cbn.
  rewrite bool_decide_false by lia.
  cbn [mret].
  rewrite (dispatch_bound apps app b key_number pressed) by done.
  cbn [lift add_calls]. eexists. split; [reflexivity|]. by cbn.
Qed.

Lemma key_event_dispatched_witness :
  ∃ w',
    main_loop_iteration resting_env 0 [red_app]
      (MkWorld [] 0 (Some 0) false None "" 0 0 0 0)
    = Some ((press_edge (Binding 0xFF0000 "Copy" [PInt 224; PInt 6]) 0).2, w')
    ∧ trace w'
      = [] ++ (press_edge (Binding 0xFF0000 "Copy" [PInt 224; PInt 6]) 0).1
    ∧ n_get w' = 1%nat
    ∧ app_index w' = 0
    ∧ last_position w' = Some 0
    ∧ last_encoder_switch w' = false.
Proof.
  apply (key_event_dispatched resting_env 0 [red_app] red_app
           (Binding 0xFF0000 "Copy" [PInt 224; PInt 6]) 0 true
           (MkWorld [] 0 (Some 0) false None "" 0 0 0 0));
    reflexivity.
Defined.

(** X13: the encoder button is a thirteenth key.  In a turn in which the
    encoder has not moved, a change of the debounced button in a profile
    with a macro at index 12 runs that macro's key-down branch when the
    button went down and its key-up branch when it went up, with no pixel
    written; the new button state is recorded and no key event is taken
    off the queue in that turn. *)
Theorem encoder_button_dispatched
    (env : Env) (fuel : nat) (apps : list App) (app : App) (b : binding)
    (w : World) :
  last_position w = Some (encoder env (n_encoder w)) →
  encoder_switch env (S (n_update w)) ≠ last_encoder_switch w →
  py_index apps (app_index w) = Ok app →
  macros app !! 12%nat = Some b →
  let pressed := encoder_switch env (S (n_update w)) in
  let edge := if pressed then press_edge b 12 else release_edge b 12 in
  ∃ w',
    main_loop_iteration env fuel apps w = Some (edge.2, w')
    ∧ trace w' = trace w ++ edge.1
    ∧ Forall (λ c, sets_pixels c = false) edge.1
    ∧ last_encoder_switch w' = pressed
    ∧ n_get w' = n_get w
    ∧ app_index w' = app_index w
    ∧ last_position w' = last_position w.
Proof.
  destruct w as [tr ai lp ls imf cip ne nm nu ng]. cbn [last_position
    n_encoder app_index n_update last_encoder_switch n_get trace].
  intros -> Hsw Happ Hb.
  pose proof (lookup_lt_Some _ _ _ Hb) as Hlt.
  unfold main_loop_iteration, poll_encoder, poll_keys. cbn.
  rewrite bool_decide_false by (by intros []). cbn.
  rewrite bool_decide_true by done. cbn.
  rewrite Happ. cbn. rewrite bool_decide_false by lia.
  cbn [mret].
  rewrite (dispatch_bound apps app b 12 (encoder_switch env (S nu))) by done.
  cbn [lift add_calls]. eexists. split; [reflexivity|].
  cbn [trace last_encoder_switch n_get app_index last_position].
  repeat split; try done.
  destruct (encoder_switch env (S nu)).
  - rewrite press_edge_calls. cbn [bool_decide]. rewrite bool_decide_false by lia.
    eapply Forall_impl; [apply press_sequence_play_calls|]. by intros [].
  - rewrite release_edge_calls.
    pose proof (release_sequence_releasing (sequence b)) as Hrs.
    destruct (release_sequence (sequence b)) as [rs [[]|e]]; cbn [fst snd] in *.
    + rewrite bool_decide_false by lia. apply Forall_app. split.
      * eapply Forall_impl; [exact Hrs|]. by intros [].
      * by repeat constructor.
    + eapply Forall_impl; [exact Hrs|]. by intros [].
Qed.

Lemma encoder_button_dispatched_witness :
  ∃ w',
    main_loop_iteration idle_env 0 [thirteen_app] idle_world
    = Some ((press_edge (Binding 0 "" [PInt 224; PStr "S"]) 12).2, w')
    ∧ trace w'
      = trace idle_world
        ++ (press_edge (Binding 0 "" [PInt 224; PStr "S"]) 12).1
    ∧ Forall (λ c, sets_pixels c = false)
        (press_edge (Binding 0 "" [PInt 224; PStr "S"]) 12).1
    ∧ last_encoder_switch w' = true
    ∧ n_get w' = n_get idle_world
    ∧ app_index w' = app_index idle_world
    ∧ last_position w' = last_position idle_world.
Proof.
  apply (encoder_button_dispatched idle_env 0 [thirteen_app] thirteen_app
           (Binding 0 "" [PInt 224; PStr "S"]) idle_world);
    try reflexivity.
  discriminate.
Defined.

(** ** The bounds of the main loop *)

Lemma edge_results (b : binding) (key_number : nat) (pressed : bool) :
  (if pressed then press_edge b key_number else release_edge b key_number).2
  = Ok tt
  ∨ (if pressed then press_edge b key_number else release_edge b key_number).2
    = Err TypeError.
Proof.
  destruct (loops_results (sequence b)) as (_ & Hp & Hr).
  destruct pressed.
  - unfold press_edge, obind.
    destruct (bool_decide (key_number < 12)%nat); cbn;
      destruct (press_sequence (sequence b)) as [cs r]; cbn in *; done.
  - rewrite release_edge_calls.
    destruct (release_sequence (sequence b)) as [cs [[]|e]]; cbn in *;
      [by left|]. destruct Hr as [?|?]; [done|by right].
Qed.

Section Bounds.

Variable env : Env.
Variable fuel : nat.
Variable apps : list App.
Hypothesis apps_loaded : (1 ≤ length apps)%nat.

Lemma poll_encoder_run (w w1 : World) (r : res bool) :
  in_bounds apps w →
  poll_encoder env fuel apps w = Some (r, w1) →
  in_bounds apps w1 ∧ match r with
                 | Err e => e = OSError
                 | Ok _ => True
                 end.
Proof.
  destruct w as [tr ai lp ls imf cip ne nm nu ng]. intros Hin E.
  destruct (decide (lp = Some (encoder env ne))) as [->|Hmoved].
  - unfold poll_encoder in E. cbn in E.
    rewrite bool_decide_false in E by (by intros []).
    cbn in E. by simplify_eq.
  - destruct (poll_encoder_moved env fuel apps tr ai lp ls imf cip ne nm nu ng
                apps_loaded Hmoved) as (app & Happ & Epoll).
    rewrite Epoll in E. unfold mbind at 1 in E.
    destruct (switch env fuel app _) as [[r1 w2]|] eqn:Esw; [|discriminate].
    apply switch_run in Esw as (cs & _ & Hai & _ & _ & _ & _ & _ & Hr).
    cbn [app_index] in Hai.
    assert (Hin2 : in_bounds apps w2).
    { unfold in_bounds. rewrite Hai. apply Z.mod_pos_bound. lia. }
    destruct r1 as [result|e].
    + destruct w2. cbn in E. by simplify_eq.
    + destruct Hr as (-> & _). by simplify_eq.
Qed.

Lemma poll_keys_run (w w1 : World) (r : res (option (nat * bool))) :
  in_bounds apps w →
  poll_keys env apps w = Some (r, w1) →
  in_bounds apps w1
  ∧ match r with
    | Err _ => False
    | Ok None => True
    | Ok (Some (key_number, _)) =>
        ∃ app, py_index apps (app_index w1) = Ok app
               ∧ (key_number < length (macros app))%nat
    end.
Proof.
  destruct w as [tr ai lp ls imf cip ne nm nu ng]. intros Hin E.
  destruct (py_index_in_range apps ai Hin) as [app Happ].
  unfold poll_keys in E. cbn in E.
  destruct (bool_decide (encoder_switch env (S nu) ≠ ls)); cbn in E.
  - rewrite Happ in E. cbn in E.
    destruct (bool_decide_reflect (length (macros app) < 13)%nat);
      cbn in E; simplify_eq; (split; [done|]); [done|].
    exists app. split; [done|]. lia.
  - destruct (key_event env ng) as [[k p]|]; cbn in E;
      [|by simplify_eq].
    rewrite Happ in E. cbn in E.
    destruct (bool_decide_reflect (length (macros app) ≤ k)%nat);
      cbn in E; simplify_eq; (split; [done|]); [done|].
    exists app. split; [done|]. lia.
Qed.

Lemma dispatch_run (key_number : nat) (pressed : bool) (app : App)
    (w w1 : World) (r : res unit) :
  in_bounds apps w →
  py_index apps (app_index w) = Ok app →
  (key_number < length (macros app))%nat →
  dispatch apps key_number pressed w = Some (r, w1) →
  in_bounds apps w1 ∧ (r = Ok tt ∨ r = Err TypeError).
Proof.
  intros Hin Happ Hk E.
  destruct (lookup_lt_is_Some_2 (macros app) key_number Hk) as [b Hb].
  rewrite (dispatch_bound apps app b key_number pressed) in E by done.
  destruct w. cbn in E. injection E as <- <-.
  split; [done|]. apply edge_results.
Qed.

Lemma main_loop_iteration_run (w w1 : World) (r : res unit) :
  in_bounds apps w →
  main_loop_iteration env fuel apps w = Some (r, w1) →
  in_bounds apps w1 ∧ match r with
                 | Err e => e = TypeError ∨ e = OSError
                 | Ok _ => True
                 end.
Proof.
  intros Hin E. unfold main_loop_iteration in E. unfold mbind at 1 in E.
  destruct (poll_encoder env fuel apps w) as [[r1 w2]|] eqn:E1;
    [|discriminate].
  apply poll_encoder_run in E1 as [Hin2 Hr1]; [|done].
  destruct r1 as [go|e]; [|simplify_eq; auto].
  destruct go; cbn [negb] in E; [|cbn in E; by simplify_eq].
  unfold mbind at 1 in E.
  destruct (poll_keys env apps w2) as [[r2 w3]|] eqn:E2; [|discriminate].
  apply poll_keys_run in E2 as [Hin3 Hr2]; [|done].
  destruct r2 as [[[k p]|]|e]; [| cbn in E; by simplify_eq | done].
  destruct Hr2 as (app & Happ & Hk).
  apply (dispatch_run k p app) in E as [Hin4 [->| ->]]; auto.
Qed.

Lemma steps_run (n : nat) (w w1 : World) (r : res phase) :
  in_bounds apps w →
  steps env fuel apps n Running w = Some (r, w1) →
  match r with
  | Err e => e = TypeError ∨ e = OSError
  | Ok ph => ph = Running ∧ in_bounds apps w1
  end.
Proof.
  revert w. induction n as [|n IH]; intros w Hin E.
  - cbn in E. by simplify_eq.
  - cbn [steps step] in E. unfold mbind at 1 2 in E.
    destruct (main_loop_iteration env fuel apps w) as [[r1 w2]|] eqn:E1;
      [|discriminate].
    apply main_loop_iteration_run in E1 as [Hin2 Hr1]; [|done].
    destruct r1 as [[]|e]; [|by simplify_eq].
    cbn [mret] in E. by apply IH in E.
Qed.

End Bounds.



Lemma startup_run (env : Env) (fuel : nat) (apps : list App)
    (w w' : World) (r : res phase) :
  startup env fuel apps w = Some (r, w') →
  match r with
  | Err e => e = OSError ∧ apps ≠ []
  | Ok Halted => apps = []
  | Ok Running =>
      apps ≠ [] ∧ app_index w' = 0 ∧ last_position w' = None
      ∧ last_encoder_switch w' = encoder_switch env (n_update w)
      ∧ n_update w' = n_update w ∧ n_get w' = n_get w
  end.
Proof.
  intros E. unfold startup in E.
  rewrite (mbind_ok _ _ _ _ _ (call_run _ _)) in E.
  destruct apps as [|app apps'].
  - do 2 rewrite (mbind_ok _ _ _ _ _ (call_run _ _)) in E.
    cbn in E. by simplify_eq.
  - destruct w as [tr ai lp ls imf cip ne nm nu ng].
    cbn [mbind add_calls set_last_position switch_pressed n_update
         set_last_encoder_switch set_app_index of_res] in E.
    change (py_index (app :: apps') 0) with (@Ok App app) in E.
    cbn beta iota in E.
    destruct (switch env fuel app _) as [[r1 w1]|] eqn:Esw; [|discriminate].
    apply switch_run in Esw
      as (cs & _ & Hai & Hlp & Hls & Hnu & Hng & _ & Hr).
    cbn in Hai, Hlp, Hls, Hnu, Hng.
    destruct r1 as [result|e]; cbn in E; simplify_eq.
    + by repeat split.
    + by destruct Hr as (-> & _).
Qed.



(** ** A turn in which the encoder has moved *)

Lemma poll_keys_frame (env : Env) (apps : list App) (w w1 : World)
    (r : res (option (nat * bool))) :
  poll_keys env apps w = Some (r, w1) →
  n_update w1 = S (n_update w)
  ∧ trace w1 = trace w
  ∧ app_index w1 = app_index w
  ∧ last_position w1 = last_position w
  ∧ n_encoder w1 = n_encoder w.
Proof.
  destruct w as [tr ai lp ls imf cip ne nm nu ng]. intros E.
  unfold poll_keys in E. cbn in E.
  destruct (bool_decide (encoder_switch env (S nu) ≠ ls)); cbn in E.
  - destruct (py_index apps ai) as [app|e]; cbn in E; [|by simplify_eq].
    destruct (bool_decide (length (macros app) < 13)%nat);
      cbn in E; by simplify_eq.
  - destruct (key_event env ng) as [[k p]|]; cbn in E; [|by simplify_eq].
    destruct (py_index apps ai) as [app|e]; cbn in E; [|by simplify_eq].
    destruct (bool_decide (length (macros app) ≤ k)%nat);
      cbn in E; by simplify_eq.
Qed.

Lemma dispatch_frame (apps : list App) (key_number : nat) (pressed : bool)
    (w w1 : World) (r : res unit) :
  dispatch apps key_number pressed w = Some (r, w1) →
  n_update w1 = n_update w
  ∧ app_index w1 = app_index w
  ∧ last_position w1 = last_position w
  ∧ n_encoder w1 = n_encoder w.
Proof.
  destruct w as [tr ai lp ls imf cip ne nm nu ng]. intros E.
  unfold dispatch in E. cbn in E.
  destruct (py_index apps ai) as [app|e]; cbn in E; [|by simplify_eq].
  destruct (py_index (macros app) (Z.of_nat key_number)) as [b|e];
    cbn in E; [|by simplify_eq].
  destruct pressed; cbn in E; by simplify_eq.
Qed.

(** X16: a turn that finds the encoder away from the recorded position
    and ends without an exception has set the profile index to
    [position % len(apps)] and recorded the position.  Either the switch
    was interrupted: then the turn has read neither the encoder button nor
    the key queue, and the last poll of the encoder differs from the one
    the icon presentation started with.  Or the switch completed: then the
    button was polled once in the same turn, and every poll during the
    presentation read the same position. *)
Theorem encoder_moved_turn
    (env : Env) (fuel : nat) (apps : list App) (w w' : World) :
  (1 ≤ length apps)%nat →
  last_position w ≠ Some (encoder env (n_encoder w)) →
  main_loop_iteration env fuel apps w = Some (Ok tt, w') →
  app_index w' = encoder env (n_encoder w) mod Z.of_nat (length apps)
  ∧ last_position w' = Some (encoder env (n_encoder w))
  ∧ ((n_update w' = n_update w
      ∧ n_get w' = n_get w
      ∧ last_encoder_switch w' = last_encoder_switch w
      ∧ (S (S (n_encoder w)) < n_encoder w')%nat
      ∧ encoder env (pred (n_encoder w')) ≠ encoder env (S (n_encoder w)))
     ∨ (n_update w' = S (n_update w)
        ∧ ∀ j, (S (n_encoder w) < j < n_encoder w')%nat →
               encoder env j = encoder env (S (n_encoder w)))).
Proof.
  destruct w as [tr ai lp ls imf cip ne nm nu ng].
  cbn [last_position n_encoder n_update n_get last_encoder_switch].
  intros Hn Hmoved E.
  destruct (poll_encoder_moved env fuel apps tr ai lp ls imf cip ne nm nu ng
              Hn Hmoved) as (app & Happ & Epoll).
  unfold main_loop_iteration in E. unfold mbind at 1 in E.
  rewrite Epoll in E. unfold mbind at 1 in E.
  destruct (switch env fuel app _) as [[r1 w2]|] eqn:Esw; [|discriminate].
  apply switch_run in Esw as (cs & _ & Hai & _ & Hls & Hnu & Hng & _ & Hr).
  cbn [app_index last_encoder_switch n_update n_get n_encoder] in *.
  destruct r1 as [result|e]; [|discriminate].
  destruct Hr as (an & _ & _ & Hle & Hres).
  destruct w2 as [tr2 ai2 lp2 ls2 imf2 cip2 ne2 nm2 nu2 ng2].
  cbn [app_index last_encoder_switch n_update n_get n_encoder] in *.
  subst ai2 ls2 nu2 ng2.
  cbn [mbind set_last_position mret] in E.
  destruct result; cbn [negb] in E.
  - unfold mbind at 1 in E.
    destruct (poll_keys env apps _) as [[r2 w3]|] eqn:E2; [|discriminate].
    apply poll_keys_frame in E2 as (Hnu3 & _ & Hai3 & Hlp3 & Hne3).
    cbn [n_update app_index last_position n_encoder] in *.
    assert (Hrest : n_update w' = n_update w3 ∧ app_index w' = app_index w3
                    ∧ last_position w' = last_position w3
                    ∧ n_encoder w' = n_encoder w3).
    { destruct r2 as [[[k p]|]|e]; cbn in E; [|by simplify_eq|discriminate].
      by apply dispatch_frame in E. }
    destruct Hrest as (-> & -> & -> & ->).
    rewrite Hai3, Hlp3, Hnu3, Hne3. do 2 (split; [done|]). right.
    split; [done|]. intros j Hj. apply Hres. lia.
  - injection E as <-.
    cbn [app_index last_position n_update n_get last_encoder_switch n_encoder].
    do 2 (split; [done|]). left. by destruct Hres.
Qed.

Lemma encoder_moved_turn_witness :
  ∃ w',
    main_loop_iteration turning_env 2 [red_app; green_app] red_active
    = Some (Ok tt, w')
    ∧ app_index w' = encoder turning_env (n_encoder red_active)
                     mod Z.of_nat (length [red_app; green_app])
    ∧ last_position w' = Some (encoder turning_env (n_encoder red_active))
    ∧ ((n_update w' = n_update red_active
        ∧ n_get w' = n_get red_active
        ∧ last_encoder_switch w' = last_encoder_switch red_active
        ∧ (S (S (n_encoder red_active)) < n_encoder w')%nat
        ∧ encoder turning_env (pred (n_encoder w'))
          ≠ encoder turning_env (S (n_encoder red_active)))
       ∨ (n_update w' = S (n_update red_active)
          ∧ ∀ j, (S (n_encoder red_active) < j < n_encoder w')%nat →
                 encoder turning_env j
                 = encoder turning_env (S (n_encoder red_active)))).
Proof.
  eexists. split; [reflexivity|].
  apply (encoder_moved_turn turning_env 2 [red_app; green_app] red_active).
  - cbn. lia.
  - discriminate.
  - reflexivity.
Defined.

(** X17: start-up that does not raise halts exactly when no profile was
    loaded.  Otherwise it enters the main loop with [app_index] 0, the
    encoder button recorded as it is (the debouncer is not updated and the
    key queue not touched, also by the switch to the first profile), and
    no position recorded, so that the first turn of the main loop finds
    the encoder moved wherever it stands. *)
Theorem startup_enters_main_loop
    (env : Env) (fuel : nat) (apps : list App) (w w' : World) (ph : phase) :
  startup env fuel apps w = Some (Ok ph, w') →
  match ph with
  | Halted => apps = []
  | Running =>
      apps ≠ [] ∧ app_index w' = 0 ∧ last_position w' = None
      ∧ last_encoder_switch w' = encoder_switch env (n_update w)
      ∧ n_update w' = n_update w ∧ n_get w' = n_get w
      ∧ last_position w' ≠ Some (encoder env (n_encoder w'))
  end.
Proof.
  intros E. apply startup_run in E. destruct ph; [|done].
  destruct E as (? & ? & Hlp & ? & ? & ?). repeat split; try done.
  by rewrite Hlp.
Qed.

Lemma startup_enters_main_loop_witness :
  ∃ w',
    startup turning_env 2 [red_app; green_app] initial_world
    = Some (Ok Running, w')
    ∧ [red_app; green_app] ≠ [] ∧ app_index w' = 0 ∧ last_position w' = None
    ∧ last_encoder_switch w'
      = encoder_switch turning_env (n_update initial_world)
    ∧ n_update w' = n_update initial_world ∧ n_get w' = n_get initial_world
    ∧ last_position w' ≠ Some (encoder turning_env (n_encoder w')).
Proof.
  eexists. split; [reflexivity|].
  apply (startup_enters_main_loop turning_env 2 [red_app; green_app]
           initial_world _ Running).
  reflexivity.
Defined.

(** ** Loading the profiles *)

Section Loading.

Import Loader.

Variable import : string → outcome appdata.

Lemma init_index (data : appdata) (i : Z) (app : App) :
  init data i = Done app →
  index app = i
  ∧ data_name data = Some (name app)
  ∧ data_macros data = Some (macros app)
  ∧ icon app = match data_icon data with
               | Some icon => icon
               | None => pretty i +:+ ".bmp"
               end.
Proof.
  unfold init. destruct (data_name data), (data_macros data); try done.
  by intros [= <-].
Qed.

(** One file either leaves the state alone but for a printed name, or
    appends one profile whose index is the old [app_index]. *)
Lemma load_file_run (filename : string) (st st' : loaded) :
  load_file import filename st = Done st' →
  (apps st' = apps st ∧ Loader.app_index st' = Loader.app_index st
   ∧ (printed st' = printed st
      ∨ (printed st' = printed st ++ [filename]
         ∧ is_macro_file filename = true)))
  ∨ (∃ app, loads import filename (Loader.app_index st) app
            ∧ apps st' = apps st ++ [app]
            ∧ Loader.app_index st' = Loader.app_index st + 1
            ∧ printed st' = printed st).
Proof.
  unfold load_file, loads.
  destruct (is_macro_file filename); [|intros [= <-]; left; auto].
  destruct (import (module_path filename)) as [data|e].
  - destruct (init data (Loader.app_index st)) as [app|e] eqn:Ei.
    + intros [= <-]. right. exists app. cbn. eauto 10.
    + destruct (caught e); intros [= <-]. left. cbn. auto.
  - destruct (caught e); intros [= <-]. left. cbn. auto.
Qed.

Lemma load_files_indices (files : list string) (st st' : loaded) :
  load_files import files st = Done st' →
  Loader.app_index st = Z.of_nat (length (apps st)) →
  (∀ i app, apps st !! i = Some app → index app = Z.of_nat i) →
  Loader.app_index st' = Z.of_nat (length (apps st'))
  ∧ ∀ i app, apps st' !! i = Some app → index app = Z.of_nat i.
Proof.
  revert st. induction files as [|f files IH]; intros st E Hn Hidx.
  - cbn in E. by simplify_eq.
  - cbn in E. destruct (load_file import f st) as [st1|e] eqn:E1;
      [|discriminate].
    apply load_file_run in E1
      as [(Ha & Hi & _)|(app & (_ & data & _ & Hinit) & Ha & Hi & _)].
    + apply (IH st1 E); rewrite ?Ha, ?Hi; done.
    + apply init_index in Hinit as (Hindex & _).
      apply (IH st1 E).
      * rewrite Ha, Hi, length_app. cbn. lia.
      * intros i app' Hl. rewrite Ha in Hl.
        apply lookup_app_Some in Hl as [Hl|[Hge Hl]]; [by apply Hidx|].
        apply list_lookup_singleton_Some in Hl as [Hz ->].
        rewrite Hindex, Hn. lia.
Qed.

Lemma load_files_source (files : list string) (st st' : loaded) :
  load_files import files st = Done st' →
  (∀ app, app ∈ apps st' →
     app ∈ apps st ∨ ∃ f, f ∈ files ∧ loads import f (index app) app)
  ∧ (∀ f data n m,
       f ∈ files → is_macro_file f = true →
       import (module_path f) = Done data →
       data_name data = Some n → data_macros data = Some m →
       ∃ app, app ∈ apps st' ∧ name app = n ∧ macros app = m)
  ∧ (∀ app, app ∈ apps st → app ∈ apps st').
Proof.
  revert st. induction files as [|f files IH]; intros st E.
  - cbn in E. simplify_eq. repeat split; auto.
    intros f data n m Hf. by apply elem_of_nil in Hf.
  - cbn in E. destruct (load_file import f st) as [st1|e] eqn:E1;
      [|discriminate].
    destruct (IH st1 E) as (Hsrc & Hall & Hkeep).
    pose proof E1 as Hrun.
    apply load_file_run in Hrun
      as [(Ha & Hi & _)|(app & Hloads & Ha & Hi & _)].
    + repeat split.
      * intros app Happ. destruct (Hsrc app Happ) as [Hin|(f' & Hf' & Hl)].
        -- left. by rewrite <- Ha.
        -- right. exists f'. split; [by right|done].
      * intros f' data n m Hf' Hmf Himp Hname Hmacros.
        apply elem_of_cons in Hf' as [->|Hf']; [|by eapply Hall].
        exfalso. unfold load_file in E1. rewrite Hmf, Himp in E1.
        unfold init in E1. rewrite Hname, Hmacros in E1.
        injection E1 as <-. cbn in Ha.
        apply (f_equal length) in Ha. rewrite length_app in Ha. cbn in Ha.
        lia.
      * intros app Happ. apply Hkeep. by rewrite Ha.
    + repeat split.
      * intros app' Happ'.
        destruct (Hsrc app' Happ') as [Hin|(f' & Hf' & Hl)].
        -- rewrite Ha in Hin. apply elem_of_app in Hin as [Hin|Hin];
             [by left|]. apply list_elem_of_singleton in Hin as ->.
           right. exists f. split; [by left|].
           destruct Hloads as (Hmf & data & Himp & Hinit).
           pose proof (init_index _ _ _ Hinit) as (Hix & _).
           rewrite Hix. split; [done|]. by exists data.
        -- right. exists f'. split; [by right|done].
      * intros f' data n m Hf' Hmf Himp Hname Hmacros.
        apply elem_of_cons in Hf' as [->|Hf']; [|by eapply Hall].
        destruct Hloads as (_ & data' & Himp' & Hinit).
        rewrite Himp in Himp'. injection Himp' as <-.
        apply init_index in Hinit as (_ & Hn & Hm & _).
        exists app. split.
        -- apply Hkeep. rewrite Ha. apply elem_of_app. right. by left.
        -- split; congruence.
      * intros app' Happ'. apply Hkeep. rewrite Ha.
        apply elem_of_app. by left.
Qed.

End Loading.

Section Sorting.

Import Loader.

Lemma StronglySorted_filter {A} (R : relation A) (P : A → Prop)
    `{∀ x, Decision (P x)} (l : list A) :
  StronglySorted R l → StronglySorted R (filter P l).
Proof.
  induction 1 as [|x l Hs IH Hall]; [constructor|].
  rewrite filter_cons. destruct (decide (P x)); [|done].
  constructor; [done|].
  apply Forall_forall. intros y Hy.
  apply list_elem_of_filter in Hy as [_ Hy].
  by eapply Forall_forall in Hall.
Qed.

(** Sorting and then dropping names gives what dropping and then sorting
    gives. *)
Lemma sort_filter (P : string → Prop) `{∀ x, Decision (P x)}
    (l : list string) :
  filter P (merge_sort String.le l) = merge_sort String.le (filter P l).
Proof.
  apply (StronglySorted_unique String.le).
  - apply StronglySorted_filter, StronglySorted_merge_sort; apply _.
  - apply StronglySorted_merge_sort; apply _.
  - by rewrite !merge_sort_Permutation.
Qed.

Lemma sort_Permutation (l1 l2 : list string) :
  l1 ≡ₚ l2 → merge_sort String.le l1 = merge_sort String.le l2.
Proof.
  intros Hp. apply (StronglySorted_unique String.le).
  - apply StronglySorted_merge_sort; apply _.
  - apply StronglySorted_merge_sort; apply _.
  - by rewrite !merge_sort_Permutation.
Qed.

Lemma elem_of_sort (f : string) (l : list string) :
  f ∈ merge_sort String.le l ↔ f ∈ l.
Proof. by rewrite merge_sort_Permutation. Qed.

End Sorting.

Section Loaded.

Import Loader.

Variable import : string → outcome appdata.

Lemma init_any_index (data : appdata) (i j : Z) (app : App) :
  init data i = Done app → ∃ app', init data j = Done app'.
Proof.
  unfold init. destruct (data_name data), (data_macros data); try done.
  eauto.
Qed.

(** Names that fail the test of line 167 do nothing. *)
Lemma load_files_macro_only (files : list string) (st : loaded) :
  load_files import (filter (λ f, is_macro_file f = true) files) st
  = load_files import files st.
Proof.
  revert st. induction files as [|f files IH]; intros st; [done|].
  rewrite filter_cons. destruct (decide (is_macro_file f = true)) as [Hm|Hm].
  - cbn. destruct (load_file import f st); [apply IH|done].
  - cbn [load_files]. unfold load_file.
    apply not_true_is_false in Hm. rewrite Hm. apply IH.
Qed.

Lemma load_file_done (f : string) (st : loaded) :
  (∃ st', load_file import f st = Done st')
  ↔ (∀ e, is_macro_file f = true → import (module_path f) = Raised e →
          caught e = true).
Proof.
  unfold load_file. destruct (is_macro_file f); [|split; [done|eauto]].
  destruct (import (module_path f)) as [data|e].
  - split; [done|]. intros _. unfold init.
    destruct (data_name data), (data_macros data); cbn; eauto.
  - split.
    + intros [st' E] e' _ [= <-]. by destruct (caught e).
    + intros H. rewrite (H e); eauto.
Qed.

Lemma load_files_done (files : list string) (st : loaded) :
  (∃ st', load_files import files st = Done st')
  ↔ (∀ f e, f ∈ files → is_macro_file f = true →
            import (module_path f) = Raised e → caught e = true).
Proof.
  revert st. induction files as [|f files IH]; intros st.
  - split; [|by eauto]. intros _ f e Hf. by apply elem_of_nil in Hf.
  - cbn. split.
    + intros [st' E] f' e Hf'.
      destruct (load_file import f st) as [st1|] eqn:E1; [|done].
      apply elem_of_cons in Hf' as [->|Hf'].
      * intros. eapply load_file_done; eauto.
      * eapply IH; eauto.
    + intros H. destruct (proj2 (load_file_done f st)) as [st1 E1].
      { intros e. apply H. by left. }
      rewrite E1. apply IH. intros f' e Hf'. apply H. by right.
Qed.

Lemma load_file_printed (f : string) (st st' : loaded) :
  load_file import f st = Done st' →
  ∀ g, g ∈ printed st'
       ↔ g ∈ printed st
         ∨ (g = f ∧ is_macro_file f = true
            ∧ ∀ i app, ¬ loads import f i app).
Proof.
  unfold load_file, loads. destruct (is_macro_file f) eqn:Hm.
  2: { intros [= <-] g. split; [by left|]. by intros [?|(_ & ? & _)]. }
  destruct (import (module_path f)) as [data|e] eqn:Himp.
  - destruct (init data (Loader.app_index st)) as [app|e] eqn:Hinit.
    + intros [= <-] g. cbn. split; [by left|].
      intros [?|(_ & _ & Hno)]; [done|].
      destruct (Hno (Loader.app_index st) app). eauto.
    + destruct (caught e); [|done]. intros [= <-] g. cbn.
      rewrite elem_of_app, list_elem_of_singleton. split.
      * intros [?| ->]; [by left|]. right. do 2 (split; [done|]).
        intros i app (_ & data' & [= <-] & Hi).
        destruct (init_any_index _ _ (Loader.app_index st) _ Hi) as [app' E'].
        congruence.
      * intros [?|(-> & _)]; auto.
  - destruct (caught e); [|done]. intros [= <-] g. cbn.
    rewrite elem_of_app, list_elem_of_singleton. split.
    + intros [?| ->]; [by left|]. right. do 2 (split; [done|]).
      by intros i app (_ & data' & [=] & _).
    + intros [?|(-> & _)]; auto.
Qed.

Lemma load_files_printed (files : list string) (st st' : loaded) :
  load_files import files st = Done st' →
  ∀ g, g ∈ printed st'
       ↔ g ∈ printed st
         ∨ (g ∈ files ∧ is_macro_file g = true
            ∧ ∀ i app, ¬ loads import g i app).
Proof.
  revert st. induction files as [|f files IH]; intros st E g.
  - cbn in E. simplify_eq. split; [by left|].
    intros [?|(Hg & _)]; [done|]. by apply elem_of_nil in Hg.
  - cbn in E. destruct (load_file import f st) as [st1|] eqn:E1; [|done].
    rewrite (IH st1 E g), (load_file_printed f st st1 E1 g), elem_of_cons.
    split.
    + intros [[?|(-> & ? & ?)]|(? & ? & ?)]; auto.
    + intros [?|([->|?] & ? & ?)]; auto.
Qed.

(** The profiles appended by the loop, with the files they come from. *)
Lemma load_files_sources (files : list string) (st st' : loaded) :
  load_files import files st = Done st' →
  ∃ fs new,
    fs `sublist_of` files
    ∧ apps st' = apps st ++ new
    ∧ Forall2 (λ f app, loads import f (index app) app) fs new.
Proof.
  revert st. induction files as [|f files IH]; intros st E.
  - cbn in E. simplify_eq. exists [], [].
    by rewrite (right_id_L [] (++)).
  - cbn in E. destruct (load_file import f st) as [st1|] eqn:E1; [|done].
    destruct (IH st1 E) as (fs & new & Hsub & Happs & Hall).
    apply load_file_run in E1
      as [(Ha & _)|(app & Hloads & Ha & _)].
    + exists fs, new. split; [by constructor|]. by rewrite <- Ha.
    + exists (f :: fs), (app :: new). split; [by constructor|].
      split; [by rewrite Happs, Ha, <- (assoc_L (++))|].
      constructor; [|done].
      destruct Hloads as (Hm & data & Himp & Hinit).
      pose proof (init_index _ _ _ Hinit) as (Hix & _).
      rewrite Hix. split; [done|]. by exists data.
Qed.

Lemma StronglySorted_sublist {A} (R : relation A) (l1 l2 : list A) :
  l1 `sublist_of` l2 → StronglySorted R l2 → StronglySorted R l1.
Proof.
  induction 1 as [|x l1 l2 Hsub IH|x l1 l2 Hsub IH]; intros Hs; [done|..].
  - apply StronglySorted_inv in Hs as [Hs Hall]. constructor; [by apply IH|].
    apply Forall_forall. intros y Hy.
    eapply Forall_forall in Hall; [done|]. by eapply elem_of_sublist.
  - apply StronglySorted_inv in Hs as [Hs _]. by apply IH.
Qed.

(** X18: the loaded profiles, in order, come from an alphabetically sorted
    selection of the folder's names, each name used at most as often as it
    is listed: profile number [i] is [App(module.app, i)] for the [i]-th
    name of the selection, a name that ends in ".py", does not start with
    "._" and whose module imported.  So the profiles follow the file names
    in sorted order, whatever order [os.listdir] gave them in, and
    [app_index] counts them. *)
Theorem load_profiles_sorted (listdir : list string) (st : loaded) :
  load import listdir = Done st →
  Loader.app_index st = Z.of_nat (length (apps st))
  ∧ ∃ fs, fs ⊆+ listdir
          ∧ StronglySorted String.le fs
          ∧ Forall2 (λ f app, loads import f (index app) app) fs (apps st)
          ∧ ∀ i app, apps st !! i = Some app → index app = Z.of_nat i.
Proof.
  unfold load. intros E.
  destruct (load_files_indices import _ _ _ E) as [Hn Hidx]; [done..|].
  split; [done|].
  destruct (load_files_sources _ _ _ E) as (fs & new & Hsub & Happs & Hall).
  cbn in Happs. subst new. exists fs. repeat split; [| |done|done].
  - rewrite <- (merge_sort_Permutation String.le listdir).
    by apply sublist_submseteq.
  - eapply StronglySorted_sublist; [done|].
    apply StronglySorted_merge_sort; apply _.
Qed.

(** X19: the icon of a profile whose dict has no ['icon'] entry is
    "<i>.bmp" where [i] is the position of the profile among those that
    loaded, not the position of its file in the folder: a file that is
    skipped or fails takes no number.  With an ['icon'] entry the icon is
    that entry. *)
Theorem default_icon_counts_profiles
    (listdir : list string) (st : loaded) (i : nat) (app : App) :
  load import listdir = Done st →
  apps st !! i = Some app →
  ∃ f data,
    f ∈ listdir
    ∧ is_macro_file f = true
    ∧ import (module_path f) = Done data
    ∧ data_name data = Some (name app)
    ∧ data_macros data = Some (macros app)
    ∧ icon app = match data_icon data with
                 | Some icon => icon
                 | None => pretty (Z.of_nat i) +:+ ".bmp"
                 end.
Proof.
  unfold load. intros E Hi.
  destruct (load_files_indices import _ _ _ E) as [_ Hidx]; [done..|].
  destruct (load_files_source import _ _ _ E) as (Hsrc & _).
  destruct (Hsrc app) as [Hin|(f & Hf & Hm & data & Himp & Hinit)].
  { by eapply list_elem_of_lookup_2. }
  { cbn in Hin. by apply elem_of_nil in Hin. }
  apply init_index in Hinit as (_ & Hname & Hmacros & Hicon).
  rewrite (Hidx i app Hi) in Hicon.
  exists f, data. rewrite elem_of_sort in Hf. by repeat split.
Qed.

(** X20: no good file is lost.  When loading ends, every name of the
    folder that passes the test of line 167 and whose module has an [app]
    dict with ['name'] and ['macros'] has a profile in [apps] carrying
    that name and those macros, whatever the other files did. *)
Theorem every_good_file_loaded
    (listdir : list string) (st : loaded) (f : string) (data : appdata)
    (n : string) (m : list binding) :
  load import listdir = Done st →
  f ∈ listdir →
  is_macro_file f = true →
  import (module_path f) = Done data →
  data_name data = Some n →
  data_macros data = Some m →
  ∃ i app, apps st !! i = Some app ∧ name app = n ∧ macros app = m.
Proof.
  unfold load. intros E Hf Hm Himp Hn Hmac.
  destruct (load_files_source import _ _ _ E) as (_ & Hall & _).
  destruct (Hall f data n m) as (app & Happ & ? & ?); [|done..|].
  { by rewrite elem_of_sort. }
  apply list_elem_of_lookup_1 in Happ as [i Hi]. by exists i, app.
Qed.

(** X21: only the names that pass the test of line 167 matter, and their
    order in the folder listing does not: two listings with the same macro
    files, in any order and among any other names, load the same profiles,
    print the same errors and end the same way. *)
Theorem load_order_independent (listdir1 listdir2 : list string) :
  filter (λ f, is_macro_file f = true) listdir1
  ≡ₚ filter (λ f, is_macro_file f = true) listdir2 →
  load import listdir1 = load import listdir2.
Proof.
  intros Hp. unfold load.
  rewrite <- (load_files_macro_only (merge_sort _ listdir1)).
  rewrite <- (load_files_macro_only (merge_sort _ listdir2)).
  by rewrite !sort_filter, (sort_Permutation _ _ Hp).
Qed.

(** X22: loading runs to its end exactly when every exception raised by
    importing a macro file is one of the seven the [except] clause names.
    Such a file is skipped and the files after it are still loaded; any
    other exception ends the program, and a name that fails the test of
    line 167 is never imported. *)
Theorem load_done_iff (listdir : list string) :
  (∃ st, load import listdir = Done st)
  ↔ (∀ f e, f ∈ listdir → is_macro_file f = true →
            import (module_path f) = Raised e → caught e = true).
Proof.
  unfold load. rewrite load_files_done.
  split; intros H f e Hf; apply H;
    [by rewrite elem_of_sort|by rewrite elem_of_sort in Hf].
Qed.

(** X23: "ERROR in <file>" is printed for exactly the macro files of the
    folder that give no profile: the names that pass the test of line 167
    and whose import, or whose [App(...)], raised. *)
Theorem load_reports_failures
    (listdir : list string) (st : loaded) (f : string) :
  load import listdir = Done st →
  f ∈ printed st
  ↔ f ∈ listdir ∧ is_macro_file f = true ∧ ∀ i app, ¬ loads import f i app.
Proof.
  unfold load. intros E.
  rewrite (load_files_printed _ _ _ E f), elem_of_sort. cbn.
  split; [intros [Hn|?]; [by apply elem_of_nil in Hn|done]|by right].
Qed.

End Loaded.

Lemma load_profiles_sorted_witness :
  Loader.app_index example_loaded
  = Z.of_nat (length (Loader.apps example_loaded))
  ∧ ∃ fs, fs ⊆+ Loader.example_listdir
          ∧ StronglySorted String.le fs
          ∧ Forall2 (λ f app,
                       Loader.loads Loader.example_import f (index app) app)
                    fs (Loader.apps example_loaded)
          ∧ ∀ i app, Loader.apps example_loaded !! i = Some app →
                     index app = Z.of_nat i.
Proof.
  apply (load_profiles_sorted Loader.example_import Loader.example_listdir).
  by vm_compute.
Defined.

Lemma default_icon_counts_profiles_witness :
  ∃ f data,
    f ∈ Loader.example_listdir
    ∧ Loader.is_macro_file f = true
    ∧ Loader.example_import (Loader.module_path f) = Loader.Done data
    ∧ Loader.data_name data = Some "Premiere"
    ∧ Loader.data_macros data
      = Some [Binding 0xBB51FB "Undo" [PInt 224; PStr "z"]]
    ∧ "0.bmp" = match Loader.data_icon data with
                | Some icon => icon
                | None => pretty (Z.of_nat 0) +:+ ".bmp"
                end.
Proof.
  apply (default_icon_counts_profiles Loader.example_import
           Loader.example_listdir example_loaded 0
           (MkApp 0 "Premiere"
              [Binding 0xBB51FB "Undo" [PInt 224; PStr "z"]] "0.bmp")).
  - by vm_compute.
  - reflexivity.
Defined.

Lemma every_good_file_loaded_witness :
  ∃ i app, Loader.apps example_loaded !! i = Some app
           ∧ name app = "Premiere"
           ∧ macros app = [Binding 0xBB51FB "Undo" [PInt 224; PStr "z"]].
Proof.
  apply (every_good_file_loaded Loader.example_import Loader.example_listdir
           example_loaded "1win-adobe-premiere.py" Loader.premiere_data).
  - by vm_compute.
  - set_solver.
  - by vm_compute.
  - by vm_compute.
  - reflexivity.
  - reflexivity.
Defined.

Lemma load_order_independent_witness :
  Loader.load Loader.example_import Loader.example_listdir
  = Loader.load Loader.example_import
      ["1win-adobe-premiere.py"; "notes.md"; "broken.py"].
Proof.
  apply (load_order_independent Loader.example_import).
  vm_compute. apply perm_swap.
Defined.

Lemma load_reports_failures_witness :
  "broken.py" ∈ Loader.printed example_loaded
  ↔ "broken.py" ∈ Loader.example_listdir
    ∧ Loader.is_macro_file "broken.py" = true
    ∧ ∀ i app, ¬ Loader.loads Loader.example_import "broken.py" i app.
Proof.
  apply (load_reports_failures Loader.example_import Loader.example_listdir).
  by vm_compute.
Defined.

(** ** The image cache *)

Lemma image_path_nonempty (env : Env) (icon_file : string) :
  image_path env icon_file ≠ "".
Proof. unfold image_path. by destruct (stat_ok env _). Qed.

Lemma add_calls_cache (env : Env) (cs : list call) (w : World) :
  cache_coherent env w → cache_coherent env (add_calls cs w).
Proof. by destruct w. Qed.

Lemma shows_active_coherent (env : Env) (apps : list App) (w : World) :
  shows_active env apps w → cache_coherent env w.
Proof.
  intros (app & _ & Hf & Hp & Hs). unfold cache_coherent. by rewrite Hf.
Qed.

Lemma py_index_nonempty {A} (l : list A) (i : Z) (a : A) :
  py_index l i = Ok a → (1 ≤ length l)%nat.
Proof.
  destruct l; [|cbn; lia]. unfold py_index. rewrite lookup_nil.
  by destruct (_ && _).
Qed.

Lemma display_image_cache (env : Env) (fuel : nat) (icon_file : string)
    (w w' : World) (r : bool) :
  cache_coherent env w →
  display_image env fuel icon_file w = Some (Ok r, w') →
  image_file w' = Some (image_path env icon_file)
  ∧ current_image_path w' = image_path env icon_file
  ∧ stat_ok env (image_path env icon_file) = true
  ∧ (current_image_path w = image_path env icon_file →
     image_file w' = image_file w).
Proof.
  destruct w as [tr ai lp ls imf cip ne nm nu ng]. unfold cache_coherent.
  cbn [image_file current_image_path]. intros Hc E.
  pose (p := image_path env icon_file).
  unfold display_image in E. cbn in E. fold p in E. fold p.
  destruct (bool_decide_reflect (cip ≠ p)) as [Hne|Heq]; cbn in E.
  - unfold open_file in E. destruct (stat_ok env p) eqn:Hs; cbn in E;
      [|discriminate].
    destruct (animate env fuel _ _ _ _) as [[r1 w1]|] eqn:Ea; [|discriminate].
    apply animate_run in Ea as (cs & ne' & nm' & loop & _ & -> & -> & _).
    destruct loop; cbn in E; by simplify_eq.
  - apply dec_stable in Heq. subst cip.
    destruct imf as [path|];
      [destruct Hc as [<- Hs]|by destruct (image_path_nonempty env icon_file)].
    destruct (animate env fuel _ _ _ _) as [[r1 w1]|] eqn:Ea; [|discriminate].
    apply animate_run in Ea as (cs & ne' & nm' & loop & _ & -> & -> & _).
    destruct loop; cbn in E; by simplify_eq.
Qed.

Lemma switch_cache (env : Env) (fuel : nat) (self : App) (w w' : World)
    (r : bool) :
  cache_coherent env w →
  switch env fuel self w = Some (Ok r, w') →
  image_file w' = Some (image_path env (icon self))
  ∧ current_image_path w' = image_path env (icon self)
  ∧ stat_ok env (image_path env (icon self)) = true
  ∧ (current_image_path w = image_path env (icon self) →
     image_file w' = image_file w).
Proof.
  intros Hc E. unfold switch in E.
  do 4 rewrite (mbind_ok _ _ _ _ _ (call_run _ _)) in E.
  rewrite (mbind_ok _ _ _ _ _
             (mfor_calls _ _ _ _ (color_calls_body self))) in E.
  rewrite (mbind_ok _ _ _ _ _ (call_run _ _)) in E.
  rewrite !add_calls_app in E. unfold mbind at 1 in E.
  destruct (display_image env fuel (icon self) _) as [[r1 w1]|] eqn:Ed;
    [|discriminate].
  destruct r1 as [loop|e]; [|discriminate].
  apply display_image_cache in Ed; [|by apply add_calls_cache].
  assert (Hw : image_file w' = image_file w1
               ∧ current_image_path w' = current_image_path w1).
  { destruct loop; cbn [negb] in E.
    - rewrite (mbind_ok _ _ _ _ _
                 (mfor_calls _ _ _ _ (label_calls_body self))) in E.
      do 3 rewrite (mbind_ok _ _ _ _ _ (call_run _ _)) in E.
      rewrite !add_calls_app in E. cbn [mret] in E.
      injection E as <- <-. by destruct w1.
    - cbn in E. by simplify_eq. }
  destruct Hw as [-> ->]. by destruct w.
Qed.

Lemma poll_keys_image (env : Env) (apps : list App) (w w1 : World)
    (r : res (option (nat * bool))) :
  poll_keys env apps w = Some (r, w1) →
  image_file w1 = image_file w
  ∧ current_image_path w1 = current_image_path w.
Proof.
  destruct w as [tr ai lp ls imf cip ne nm nu ng]. intros E.
  unfold poll_keys in E. cbn in E.
  destruct (bool_decide (encoder_switch env (S nu) ≠ ls)); cbn in E.
  - destruct (py_index apps ai) as [app|e]; cbn in E; [|by simplify_eq].
    destruct (bool_decide (length (macros app) < 13)%nat);
      cbn in E; by simplify_eq.
  - destruct (key_event env ng) as [[k p]|]; cbn in E; [|by simplify_eq].
    destruct (py_index apps ai) as [app|e]; cbn in E; [|by simplify_eq].
    destruct (bool_decide (length (macros app) ≤ k)%nat);
      cbn in E; by simplify_eq.
Qed.

Lemma dispatch_image (apps : list App) (key_number : nat) (pressed : bool)
    (w w1 : World) (r : res unit) :
  dispatch apps key_number pressed w = Some (r, w1) →
  image_file w1 = image_file w
  ∧ current_image_path w1 = current_image_path w.
Proof.
  destruct w as [tr ai lp ls imf cip ne nm nu ng]. intros E.
  unfold dispatch in E. cbn in E.
  destruct (py_index apps ai) as [app|e]; cbn in E; [|by simplify_eq].
  destruct (py_index (macros app) (Z.of_nat key_number)) as [b|e];
    cbn in E; [|by simplify_eq].
  destruct pressed; cbn in E; by simplify_eq.
Qed.

Lemma poll_encoder_cache (env : Env) (fuel : nat) (apps : list App)
    (w w' : World) (r : bool) :
  shows_active env apps w →
  poll_encoder env fuel apps w = Some (Ok r, w') →
  shows_active env apps w'.
Proof.
  intros Hs E. pose proof (shows_active_coherent _ _ _ Hs) as Hc.
  assert (Hn : (1 ≤ length apps)%nat).
  { destruct Hs as (app & Happ & _). by eapply py_index_nonempty. }
  destruct w as [tr ai lp ls imf cip ne nm nu ng].
  destruct (decide (lp = Some (encoder env ne))) as [->|Hmoved].
  - unfold poll_encoder in E. cbn in E.
    rewrite bool_decide_false in E by (by intros []).
    cbn in E. by simplify_eq.
  - destruct (poll_encoder_moved env fuel apps tr ai lp ls imf cip ne nm nu ng
                Hn Hmoved) as (app & Happ & Epoll).
    rewrite Epoll in E. unfold mbind at 1 in E.
    destruct (switch env fuel app _) as [[r1 w2]|] eqn:Esw; [|discriminate].
    destruct r1 as [result|e]; [|discriminate].
    pose proof Esw as Hrun.
    apply switch_run in Hrun as (cs & _ & Hai & _).
    apply switch_cache in Esw as (Hf & Hp & Hst & _); [|done].
    cbn [app_index] in Hai.
    destruct w2 as [tr2 ai2 lp2 ls2 imf2 cip2 ne2 nm2 nu2 ng2].
    cbn in E, Hai, Hf, Hp. injection E as <- <-. subst.
    exists app. by repeat split.
Qed.

Lemma main_loop_iteration_cache (env : Env) (fuel : nat) (apps : list App)
    (w w' : World) :
  shows_active env apps w →
  main_loop_iteration env fuel apps w = Some (Ok tt, w') →
  shows_active env apps w'.
Proof.
  intros Hs E. unfold main_loop_iteration in E. unfold mbind at 1 in E.
  destruct (poll_encoder env fuel apps w) as [[r1 w2]|] eqn:E1;
    [|discriminate].
  destruct r1 as [go|e]; [|discriminate].
  apply poll_encoder_cache in E1; [|done].
  destruct go; cbn [negb] in E; [|cbn in E; by simplify_eq].
  unfold mbind at 1 in E.
  destruct (poll_keys env apps w2) as [[r2 w3]|] eqn:E2; [|discriminate].
  pose proof (poll_keys_frame _ _ _ _ _ E2) as (_ & _ & Hai3 & _).
  apply poll_keys_image in E2 as (Hf3 & Hp3).
  assert (Hs3 : shows_active env apps w3).
  { unfold shows_active. by rewrite Hai3, Hf3, Hp3. }
  destruct r2 as [[[k p]|]|e]; [| cbn in E; by simplify_eq | done].
  pose proof (dispatch_frame _ _ _ _ _ _ E) as (_ & Hai4 & _).
  apply dispatch_image in E as (Hf4 & Hp4).
  unfold shows_active. by rewrite Hai4, Hf4, Hp4.
Qed.

Lemma steps_cache (env : Env) (fuel : nat) (apps : list App) (n : nat)
    (w w' : World) (ph : phase) :
  shows_active env apps w →
  steps env fuel apps n Running w = Some (Ok ph, w') →
  shows_active env apps w'.
Proof.
  revert w. induction n as [|n IH]; intros w Hs E.
  - cbn in E. by simplify_eq.
  - cbn [steps step] in E. unfold mbind at 1 2 in E.
    destruct (main_loop_iteration env fuel apps w) as [[r1 w2]|] eqn:E1;
      [|discriminate].
    destruct r1 as [[]|e]; [|discriminate].
    apply main_loop_iteration_cache in E1; [|done].
    cbn [mret] in E. by apply IH in E.
Qed.

Lemma startup_cache (env : Env) (fuel : nat) (apps : list App)
    (w w' : World) :
  cache_coherent env w →
  startup env fuel apps w = Some (Ok Running, w') →
  shows_active env apps w'.
Proof.
  intros Hc E. unfold startup in E.
  rewrite (mbind_ok _ _ _ _ _ (call_run _ _)) in E.
  destruct apps as [|app apps'].
  { do 2 rewrite (mbind_ok _ _ _ _ _ (call_run _ _)) in E. discriminate. }
  destruct w as [tr ai lp ls imf cip ne nm nu ng].
  cbn [mbind add_calls set_last_position switch_pressed n_update
       set_last_encoder_switch set_app_index of_res] in E.
  change (py_index (app :: apps') 0) with (@Ok App app) in E.
  cbn beta iota in E.
  destruct (switch env fuel app _) as [[r1 w1]|] eqn:Esw; [|discriminate].
  destruct r1 as [result|e]; [|discriminate].
  pose proof Esw as Hrun.
  apply switch_run in Hrun as (cs & _ & Hai & _).
  apply switch_cache in Esw as (Hf & Hp & Hst & _); [|done].
  cbn in Hai. cbn in E. injection E as <-.
  exists app. rewrite Hai. by repeat split.
Qed.



(** X25: in every state the main loop reaches, from a start with the
    cache in order, the open image file is the image of the active
    profile [apps[app_index]] (its icon, or the default image when the
    icon is not on the drive), it exists, and it is the file recorded in
    [current_image_path]: also after a switch that the encoder
    interrupted. *)
Theorem open_image_is_active_profile
    (env : Env) (fuel : nat) (apps : list App) (n : nat) (w w' : World) :
  cache_coherent env w →
  program env fuel apps n w = Some (Ok Running, w') →
  shows_active env apps w'.
Proof.
  intros Hc E. unfold program in E. unfold mbind at 1 in E.
  destruct (startup env fuel apps w) as [[r1 w1]|] eqn:Es; [|discriminate].
  destruct r1 as [[]|e]; [| |discriminate].
  - apply startup_cache in Es; [|done]. by eapply steps_cache.
  - rewrite steps_halted in E. discriminate.
Qed.

Lemma open_image_is_active_profile_witness :
  ∃ w',
    program turning_env 2 [red_app; green_app] 1 initial_world
    = Some (Ok Running, w')
    ∧ shows_active turning_env [red_app; green_app] w'.
Proof.
  eexists. split; [reflexivity|].
  apply (open_image_is_active_profile turning_env 2 [red_app; green_app] 1
           initial_world).
  - reflexivity.
  - reflexivity.
Defined.

(** ** The frames of the animation *)

Lemma show_frames_frames (env : Env) (enc0 : Z) (frames : list nat)
    (w w' : World) (r : res bool) :
  show_frames env enc0 frames w = Some (r, w') →
  ∃ cs, trace w' = trace w ++ cs ∧ ∀ k, SpriteFrame k ∈ cs → k ∈ frames.
Proof.
  revert w r w'. induction frames as [|f frames IH];
    intros [tr ai lp ls imf cip ne nm nu ng] r w' E.
  - cbn in E. injection E as <- <-. exists [].
    split; [by rewrite (right_id_L [] (++))|].
    intros k Hk. by apply elem_of_nil in Hk.
  - cbn in E. destruct (decide (encoder env ne = enc0)) as [Heq|Hne].
    + rewrite bool_decide_false in E by (by intros []).
      cbn in E. apply IH in E as (cs & Htr & Hk).
      exists ([SpriteFrame f; DisplayRefresh; Sleep FRAME_DURATION] ++ cs).
      split; [rewrite Htr; cbn; by rewrite <- !(assoc_L (++))|].
      intros k Hin. apply elem_of_app in Hin as [Hin|Hin].
      * apply elem_of_cons in Hin as [[= ->]|Hin]; [by left|].
        apply elem_of_cons in Hin as [?|Hin]; [done|].
        apply elem_of_cons in Hin as [?|Hin]; [done|].
        by apply elem_of_nil in Hin.
      * right. by apply Hk.
    + rewrite bool_decide_true in E by done.
      cbn in E. injection E as <- <-.
      exists [SpriteFrame f; DisplayRefresh].
      split; [cbn; by rewrite <- !(assoc_L (++))|].
      intros k Hin.
      apply elem_of_cons in Hin as [[= ->]|Hin]; [by left|].
      apply elem_of_cons in Hin as [?|Hin]; [done|].
      by apply elem_of_nil in Hin.
Qed.

Lemma animate_frames (env : Env) (fuel : nat) (enc0 : Z) (t0 : Q)
    (frames : list nat) (w w' : World) (r : res bool) :
  animate env fuel enc0 t0 frames w = Some (r, w') →
  ∃ cs, trace w' = trace w ++ cs ∧ ∀ k, SpriteFrame k ∈ cs → k ∈ frames.
Proof.
  revert w r w'. induction fuel as [|fuel IH];
    intros [tr ai lp ls imf cip ne nm nu ng] r w' E; [discriminate|].
  cbn in E.
  destruct (Qlt_bool (monotonic env nm) (t0 + ICON_DURATION)); cbn in E.
  - destruct (show_frames env enc0 frames _) as [[r1 w1]|] eqn:Efr;
      [|discriminate].
    apply show_frames_frames in Efr as (cs & Htr & Hk). cbn in Htr.
    destruct r1 as [[]|e].
    + apply IH in E as (cs' & Htr' & Hk'). exists (cs ++ cs').
      split; [by rewrite Htr', Htr, (assoc_L (++))|].
      intros k Hin. apply elem_of_app in Hin as [?|?]; auto.
    + cbn in E. injection E as <- <-. by exists cs.
    + injection E as <- <-. by exists cs.
  - injection E as <- <-. exists [].
    split; [cbn; by rewrite (right_id_L [] (++))|].
    intros k Hk. by apply elem_of_nil in Hk.
Qed.

Lemma display_image_frames (env : Env) (fuel : nat) (icon_file : string)
    (w w' : World) (r : res bool) :
  display_image env fuel icon_file w = Some (r, w') →
  ∃ cs, trace w' = trace w ++ cs
        ∧ ∀ k, SpriteFrame k ∈ cs →
               (k < Z.to_nat (frame_count env (image_path env icon_file)))%nat.
Proof.
  destruct w as [tr ai lp ls imf cip ne nm nu ng]. intros E.
  pose (p := image_path env icon_file).
  unfold display_image in E. cbn in E. fold p in E. fold p.
  assert (Hanim : ∀ w0 : World,
    mbind (animate env fuel (encoder env ne) (monotonic env nm)
             (seq 0 (Z.to_nat (frame_count env p))))
      (λ loop, if negb loop then mret false else mret true) w0
    = Some (r, w') →
    ∃ cs, trace w' = trace w0 ++ cs
          ∧ ∀ k, SpriteFrame k ∈ cs →
                 (k < Z.to_nat (frame_count env p))%nat).
  { intros w0 Ea. unfold mbind at 1 in Ea.
    destruct (animate env fuel _ _ _ w0) as [[r1 w1]|] eqn:Ean;
      [|discriminate].
    apply animate_frames in Ean as (cs & Htr & Hk).
    assert (w' = w1) as ->.
    { destruct r1 as [[]|e]; cbn in Ea; by simplify_eq. }
    exists cs. split; [done|]. intros k Hin.
    apply Hk, elem_of_seq in Hin. lia. }
  assert (Hshow : ∀ cs, (∀ k, SpriteFrame k ∈ cs →
                              (k < Z.to_nat (frame_count env p))%nat) →
                        ∀ k, SpriteFrame k ∈ DisplayShow (Sprite p) :: cs →
                             (k < Z.to_nat (frame_count env p))%nat).
  { intros cs Hk k Hin. apply elem_of_cons in Hin as [?|?]; [done|auto]. }
  destruct (bool_decide (cip ≠ p)); cbn in E.
  - unfold open_file in E. destruct (stat_ok env p); cbn in E.
    + apply Hanim in E as (cs & Htr & Hk). cbn in Htr.
      exists (DisplayShow (Sprite p) :: cs).
      split; [by rewrite Htr, <- (assoc_L (++))|]. by apply Hshow.
    + injection E as <- <-. exists [].
      split; [cbn; by rewrite (right_id_L [] (++))|].
      intros k Hk. by apply elem_of_nil in Hk.
  - apply Hanim in E as (cs & Htr & Hk). cbn in Htr.
    exists (DisplayShow (Sprite p) :: cs).
    split; [by rewrite Htr, <- (assoc_L (++))|]. by apply Hshow.
Qed.

(** X26: [display_image] never selects a frame outside the sprite sheet.
    When the bitmap is at least one icon high, every frame index it writes
    to the sprite, in any run and however it ends, names a tile that lies
    inside the bitmap; and when the height is a multiple of [ICON_HEIGHT],
    as the comment at line 35 asks, the frames counted are exactly the
    whole sheet. *)
Theorem frames_within_bitmap
    (env : Env) (fuel : nat) (icon_file : string) (w w' : World)
    (r : res bool) :
  ICON_HEIGHT ≤ bitmap_height env (image_path env icon_file) →
  display_image env fuel icon_file w = Some (r, w') →
  (∃ cs, trace w' = trace w ++ cs
         ∧ ∀ k, SpriteFrame k ∈ cs →
                (Z.of_nat k + 1) * ICON_HEIGHT
                ≤ bitmap_height env (image_path env icon_file))
  ∧ (bitmap_height env (image_path env icon_file) mod ICON_HEIGHT = 0 →
     frame_count env (image_path env icon_file) * ICON_HEIGHT
     = bitmap_height env (image_path env icon_file)).
Proof.
  intros Hh E. unfold frame_count, ICON_HEIGHT in *.
  set (h := bitmap_height env (image_path env icon_file)) in *.
  pose proof (Z.mul_div_le h 64 eq_refl) as Hle.
  split.
  - apply display_image_frames in E as (cs & Htr & Hk).
    exists cs. split; [done|]. intros k Hin. apply Hk in Hin.
    unfold frame_count, ICON_HEIGHT in Hin. fold h in Hin.
    destruct (Z.ltb_spec 1 (h / 64)); lia.
  - intros Hmod. pose proof (Z.div_mod h 64) as Hdm.
    assert (1 ≤ h / 64) by (apply Z.div_le_lower_bound; lia).
    destruct (Z.ltb_spec 1 (h / 64)); lia.
Qed.

Lemma frames_within_bitmap_witness :
  ∃ w',
    display_image resting_env 2 "1.bmp" initial_world = Some (Ok true, w')
    ∧ (∃ cs, trace w' = trace initial_world ++ cs
             ∧ ∀ k, SpriteFrame k ∈ cs →
                    (Z.of_nat k + 1) * ICON_HEIGHT
                    ≤ bitmap_height resting_env
                        (image_path resting_env "1.bmp"))
    ∧ (bitmap_height resting_env (image_path resting_env "1.bmp")
       mod ICON_HEIGHT = 0 →
       frame_count resting_env (image_path resting_env "1.bmp") * ICON_HEIGHT
       = bitmap_height resting_env (image_path resting_env "1.bmp")).
Proof.
  eexists. split; [by lazy|].
  apply (frames_within_bitmap resting_env 2 "1.bmp" initial_world _ (Ok true)).
  - by vm_compute.
  - by lazy.
Defined.

(** ** From the folder to the halt *)

Lemma program_halts_iff (env : Env) (fuel n : nat) (apps : list App)
    (w : World) :
  program env fuel apps n w
  = Some (Ok Halted,
          add_calls [DisplayShow Menu; SetLabel 13 "NO MACRO FILES FOUND";
                     DisplayRefresh] w)
  ↔ apps = [].
Proof.
  split.
  - intros E. unfold program in E. unfold mbind at 1 in E.
    destruct (startup env fuel apps w) as [[r1 w1]|] eqn:Es; [|discriminate].
    apply startup_run in Es. destruct r1 as [[]|e]; [|done|discriminate].
    destruct Es as (Hne & Hai & _).
    assert (Hlen : (1 ≤ length apps)%nat) by (destruct apps; [done|cbn; lia]).
    apply (steps_run env fuel apps Hlen) in E; [by destruct E|].
    unfold in_bounds. rewrite Hai. lia.
  - intros ->. unfold program.
    erewrite mbind_ok; [apply steps_halted|].
    destruct w. cbn. by rewrite <- !(assoc_L (++)).
Qed.

(** X27: the pad shows "NO MACRO FILES FOUND" and halts exactly when no
    file of the macro folder gives a profile.  After a load that ran to
    its end, the program started on the loaded profiles shows the menu
    group, writes the message to the title label, refreshes the display
    and stays halted, for any number of turns, if and only if no listed
    name passes the test of line 167 with a module that imports and has
    ['name'] and ['macros']. *)
Theorem halts_iff_no_profile_loads
    (import : string → Loader.outcome Loader.appdata)
    (listdir : list string) (st : Loader.loaded)
    (env : Env) (fuel n : nat) (w : World) :
  Loader.load import listdir = Loader.Done st →
  program env fuel (Loader.apps st) n w
  = Some (Ok Halted,
          add_calls [DisplayShow Menu; SetLabel 13 "NO MACRO FILES FOUND";
                     DisplayRefresh] w)
  ↔ ∀ f i app, f ∈ listdir → ¬ Loader.loads import f i app.
Proof.
  unfold Loader.load. intros E. rewrite program_halts_iff.
  destruct (load_files_source import _ _ _ E) as (Hsrc & Hall & _).
  split.
  - intros Hnil f i app Hf (Hm & data & Himp & Hinit).
    apply init_index in Hinit as (_ & Hname & Hmacros & _).
    destruct (Hall f data (name app) (macros app)) as (app' & Hin & _);
      [by rewrite elem_of_sort|done..|].
    rewrite Hnil in Hin. by apply elem_of_nil in Hin.
  - intros Hno. destruct (Loader.apps st) as [|a l] eqn:Ha; [done|].
    destruct (Hsrc a) as [Hin|(f & Hf & Hl)]; [by left| |].
    + cbn in Hin. by apply elem_of_nil in Hin.
    + rewrite elem_of_sort in Hf. by destruct (Hno f (index a) a).
Qed.

Lemma halts_iff_no_profile_loads_witness :
  program idle_env 0 [] 3 initial_world
  = Some (Ok Halted,
          add_calls [DisplayShow Menu; SetLabel 13 "NO MACRO FILES FOUND";
                     DisplayRefresh] initial_world)
  ↔ ∀ f i app, f ∈ ["readme.txt"; "broken.py"] →
               ¬ Loader.loads Loader.example_import f i app.
Proof.
  apply (halts_iff_no_profile_loads Loader.example_import
           ["readme.txt"; "broken.py"]
           (Loader.Loaded [] 0 ["broken.py"]) idle_env 0 3 initial_world).
  by vm_compute.
Defined.
